(** * Binary tree nodes: a heap model of [BinaryTreeNode] and its properties

    The class [BinaryTreeNode<T>] keeps five private fields per object
    ([#data], [#father], [#left], [#right], [#level]) and links objects by
    reference.  Objects are compared by identity ([===]), so the model is a
    store of node records addressed by locations; a value of type
    [BTNode<T>] is a location or [null]. *)

From stdpp Require Import gmap list relations.

Set Default Proof Using "Type".
Set Warnings "-clear-no-such-hyp".

(** ** The store *)

Definition loc := positive.
Bind Scope positive_scope with loc.

(** [BTNode<T>]: a reference to a node object, or [null]. *)
Abbreviation BTNode := (option loc).

Section node.
Context {T : Type}.

(** The private fields of one [BinaryTreeNode] object.  [#level] is a
    JavaScript number that starts at 0 and only ever receives
    [level() + 1]; it is a natural number, exact as long as a father chain
    is shorter than 2^53 nodes. *)
Record node := Node {
  p_data : T;
  p_father : BTNode;
  p_left : BTNode;
  p_right : BTNode;
  p_level : nat;
}.

Definition with_father (v : BTNode) (nd : node) : node :=
  Node (p_data nd) v (p_left nd) (p_right nd) (p_level nd).
Definition with_left (v : BTNode) (nd : node) : node :=
  Node (p_data nd) (p_father nd) v (p_right nd) (p_level nd).
Definition with_right (v : BTNode) (nd : node) : node :=
  Node (p_data nd) (p_father nd) (p_left nd) v (p_level nd).
Definition with_level (v : nat) (nd : node) : node :=
  Node (p_data nd) (p_father nd) (p_left nd) (p_right nd) v.
End node.
Arguments node : clear implicits.

Abbreviation heap T := (gmap loc (node T)).

(** ** Statements that may throw

    A method body runs on the store and either completes normally with a
    value or throws; the store it leaves behind is kept in both cases. *)

Inductive exn := InvalidInsertion.

Inductive completion (A : Type) :=
  | Normal (a : A)
  | Thrown (e : exn).
Arguments Normal {A} a.
Arguments Thrown {A} e.

Definition M (T A : Type) : Type := heap T → completion A * heap T.

Definition ret {T A} (a : A) : M T A := λ h, (Normal a, h).
Definition throw {T A} (e : exn) : M T A := λ h, (Thrown e, h).
Definition bind {T A B} (m : M T A) (k : A → M T B) : M T B :=
  λ h, match m h with
       | (Normal a, h') => k a h'
       | (Thrown e, h') => (Thrown e, h')
       end.
(** Reading the store. *)
Definition gets {T A} (f : heap T → A) : M T A := λ h, (Normal (f h), h).
(** Assigning a private field of the object at [n]. *)
Definition assign {T} (n : loc) (f : node T → node T) : M T unit :=
  λ h, (Normal tt, alter f n h).

Declare Scope stmt_scope.
Delimit Scope stmt_scope with stmt.
Notation "'let!' x := m 'in' k" := (bind m (λ x, k))
  (at level 10, x name, m at level 100, k at level 200,
   format "'[v' 'let!'  x  :=  m  'in' '/' k ']'") : stmt_scope.
Notation "m ;;; k" := (bind m (λ _, k))
  (at level 100, k at level 200, right associativity,
   format "'[v' m  ;;; '/' k ']'") : stmt_scope.

(** ** The stack of the package [linear] *)

(** Modelled from the spec: the class [Stack] is imported from the package
    [linear] and is not part of the sources; the specification asks for
    "a minimal stack abstraction (LIFO push/pop/empty)".  [pop] is only
    called on a stack that is not empty; on the empty stack the model
    returns an arbitrary value. *)
Module Stack.
Definition t (A : Type) := list A.
Definition new {A} : t A := [].
Definition push {A} (x : A) (s : t A) : t A := x :: s.
Definition empty {A} (s : t A) : bool := if s is [] then true else false.
Definition pop {A} `{Inhabited A} (s : t A) : A * t A :=
  match s with
  | [] => (inhabitant, [])
  | x :: s => (x, s)
  end.
End Stack.

(** ** The class *)

Module BinaryTreeNode.
Section methods.
Context {T : Type}.
Implicit Types (h : heap T) (this : loc) (tree node : BTNode).

(** [constructor(data)]: a new object with no father, no sons, level 0.
    The new object's identity differs from every object of the store. *)
Definition new (data : T) : M T loc := λ h,
  let this := fresh (dom h) in
  (Normal this, <[this := Node data None None None 0]> h).

(** The getters [father], [left], [right] and the method [level()].  A
    reference held by a program always designates an object of the store;
    on a location outside the store the getters read [null] and 0. *)
Definition father h this : BTNode := h !! this ≫= p_father.
Definition left h this : BTNode := h !! this ≫= p_left.
Definition right h this : BTNode := h !! this ≫= p_right.
Definition level h this : nat := from_option p_level 0 (h !! this).
Definition data h this : option T := p_data <$> h !! this.

(** [isRoot()]: [this.#father === null]. *)
Definition isRoot h this : bool := bool_decide (father h this = None).

(** [isLeaf()]: [this.left === null && this.right === null]. *)
Definition isLeaf h this : bool :=
  bool_decide (left h this = None) && bool_decide (right h this = None).

(** [isRight()]: [this.father?.right === this]; with no father the
    optional chain gives [undefined], which is not [this]. *)
Definition isRight h this : bool :=
  match father h this with
  | None => false
  | Some f => bool_decide (right h f = Some this)
  end.

(** [isLeft()]: [this.father?.left === this]. *)
Definition isLeft h this : bool :=
  match father h this with
  | None => false
  | Some f => bool_decide (left h f = Some this)
  end.

(** [get brother()]. *)
Definition brother h this : BTNode :=
  match father h this with
  | None => None
  | Some f => if isLeft h this then right h f else left h f
  end.

(** [get root()]: [while (node.father !== null) node = node.father].
    The loop is unrolled at most [fuel] times; [None] means that it is
    still running. *)
Fixpoint root_loop (fuel : nat) h (node : loc) : option loc :=
  match fuel with
  | O => None
  | S fuel =>
      match father h node with
      | None => Some node
      | Some f => root_loop fuel h f
      end
  end.
Definition root (fuel : nat) h this : option loc := root_loop fuel h this.

(** [insertLeft(data)].  [if (this.left)] tests a value that is an object
    or [null], so it is taken exactly when the slot holds a node. *)
Definition insertLeft this (data : T) : M T loc :=
  (let! l := gets (λ h, left h this) in
   if l is Some _ then throw InvalidInsertion else
   let! left := new data in
   assign this (with_left (Some left)) ;;;
   assign left (with_father (Some this)) ;;;
   let! lv := gets (λ h, level h this) in
   assign left (with_level (lv + 1)) ;;;
   ret this)%stmt.

(** [insertRight(data)]. *)
Definition insertRight this (data : T) : M T loc :=
  (let! r := gets (λ h, right h this) in
   if r is Some _ then throw InvalidInsertion else
   let! right := new data in
   assign this (with_right (Some right)) ;;;
   assign right (with_father (Some this)) ;;;
   let! lv := gets (λ h, level h this) in
   assign right (with_level (lv + 1)) ;;;
   ret this)%stmt.

(** [ancestor(tree)]: the loop [while (node !== null)], entered with
    [node = this.father]. *)
Fixpoint ancestor_loop (fuel : nat) h tree node : option bool :=
  match fuel with
  | O => None
  | S fuel =>
      match node with
      | None => Some false
      | Some n =>
          if decide (node = tree) then Some true
          else ancestor_loop fuel h tree (father h n)
      end
  end.
Definition ancestor (fuel : nat) h this tree : option bool :=
  ancestor_loop fuel h tree (father h this).

(** [descendant(tree)].  The two sons are pushed as they are, [null]
    included; inside the loop a son is pushed only when it is truthy,
    that is, when it is a node. *)
Definition descendant_body h (node : BTNode) (visited : Stack.t BTNode)
    : Stack.t BTNode :=
  let visited :=
    if node ≫= left h is Some l then Stack.push (Some l) visited
    else visited in
  if node ≫= right h is Some r then Stack.push (Some r) visited
  else visited.

Fixpoint descendant_loop (fuel : nat) h tree (visited : Stack.t BTNode)
    : option bool :=
  match fuel with
  | O => None
  | S fuel =>
      if Stack.empty visited then Some false
      else
        let '(node, visited) := Stack.pop visited in
        if decide (node = tree) then Some true
        else descendant_loop fuel h tree (descendant_body h node visited)
  end.

Definition descendant (fuel : nat) h this tree : option bool :=
  let visited := Stack.new in
  let visited := Stack.push (left h this) visited in
  let visited := Stack.push (right h this) visited in
  descendant_loop fuel h tree visited.

(** The stack on which the loop of [descendant] is entered: the new stack
    after [visited.push(this.left)] and [visited.push(this.right)], neither
    of which is guarded. *)
Definition descendant_seeds h this : Stack.t BTNode :=
  Stack.push (right h this) (Stack.push (left h this) Stack.new).
End methods.
End BinaryTreeNode.

(** ** Programs over the class

    The fields are private, so a store changes only through the constructor
    and the two insertion methods.  A method is invoked on an object of the
    store; an [InvalidInsertion] that a call throws is caught by the caller
    and the program goes on. *)

Inductive op (T : Type) :=
  | New (data : T)
  | InsertLeft (this : loc) (data : T)
  | InsertRight (this : loc) (data : T).
Arguments New {T} data.
Arguments InsertLeft {T} this data.
Arguments InsertRight {T} this data.

Definition exec {T} (o : op T) : M T loc :=
  match o with
  | New d => BinaryTreeNode.new d
  | InsertLeft this d => BinaryTreeNode.insertLeft this d
  | InsertRight this d => BinaryTreeNode.insertRight this d
  end.

Definition receiver {T} (o : op T) : option loc :=
  match o with
  | New _ => None
  | InsertLeft this _ | InsertRight this _ => Some this
  end.

Definition step {T} (h : heap T) (o : op T) : heap T :=
  match receiver o with
  | Some this => if decide (this ∈ dom h) then (exec o h).2 else h
  | None => (exec o h).2
  end.

Definition run {T} (ops : list (op T)) (h : heap T) : heap T :=
  foldl step h ops.

(** The stores a program can build, starting with no object at all. *)
Definition reachable {T} (h : heap T) : Prop := ∃ ops, run ops ∅ = h.

(** ** Vocabulary of the properties *)

Section vocabulary.
Context {T : Type}.
Implicit Types (h : heap T) (this c f n x : loc).
Import BinaryTreeNode.

(** The links of a store agree with each other: a son points back to its
    father and lies one level below it, a father holds each of its sons in
    one of its two slots, the two slots hold different nodes, and a node
    without father has level 0. *)
Record wf h : Prop := {
  wf_left n c :
    left h n = Some c → father h c = Some n ∧ level h c = level h n + 1;
  wf_right n c :
    right h n = Some c → father h c = Some n ∧ level h c = level h n + 1;
  wf_father c f :
    father h c = Some f → left h f = Some c ∨ right h f = Some c;
  wf_sons n c : left h n = Some c → right h n ≠ Some c;
  wf_root n : father h n = None → level h n = 0;
}.

(** [father_of h x f]: the father link of [x] leads to [f]. *)
Definition father_of h : relation loc := λ x f, father h x = Some f.

(** [son_of h n c]: one of the two slots of [n] holds [c]. *)
Definition son_of h : relation loc :=
  λ n c, left h n = Some c ∨ right h n = Some c.

(** The two slots of a node. *)
Inductive slot := SlotLeft | SlotRight.
Definition opposite (s : slot) : slot :=
  match s with SlotLeft => SlotRight | SlotRight => SlotLeft end.
Definition slot_get h (s : slot) n : BTNode :=
  match s with SlotLeft => left h n | SlotRight => right h n end.

(** The shape below a reference: what the store holds, read as a term. *)
Inductive shape :=
  | Leaf
  | Br (l : shape) (n : loc) (r : shape).

Inductive repr h : BTNode → shape → Prop :=
  | repr_null : repr h None Leaf
  | repr_node n tl tr :
      repr h (left h n) tl → repr h (right h n) tr →
      repr h (Some n) (Br tl n tr).

Fixpoint nodes (t : shape) : list loc :=
  match t with
  | Leaf => []
  | Br l n r => n :: nodes l ++ nodes r
  end.

(** Number of turns that the search of [descendant] spends on a stack
    entry of shape [t]: one for the entry, one for each node below it. *)
Definition pops (t : shape) : nat :=
  match t with
  | Leaf => 1
  | Br l _ r => S (length (nodes l ++ nodes r))
  end.

(** A stack entry [v], of shape [t], answers the search for [tree]: the
    entry is [null] and so is [tree], or [tree] is a node of [t]. *)
Definition occurs tree (p : BTNode * shape) : Prop :=
  match tree with
  | None => p.1 = None
  | Some c => c ∈ nodes p.2
  end.
End vocabulary.

(** ** Traversal modes *)

(** [enum TraversalMethod { ASC, DESC, PREORDER = 0, POSTORDER, INORDER }]:
    the members of a numeric enum are numbers; a member without initializer
    is one more than the member before it, and the first one is 0. *)
Module TraversalMethod.
End TraversalMethod.

(** Modelled from the spec: the traversal engine ([preorder], [inorder],
    [postorder] and the dispatcher [traverse]) is not among the sources,
    which only declare its interface.  The dispatcher is not modelled: the
    properties below hold of every function of the mode.  The specification
    gives the orders:
    "PREORDER (visit-self, recurse-left, recurse-right), INORDER
    (recurse-left, visit-self, recurse-right), POSTORDER (recurse-left,
    recurse-right, visit-self)", "DESC is its mirror (recurse-right,
    visit-self, recurse-left)".  A traversal is read here as the sequence
    of nodes that it visits in a shape. *)
Module Traversal.



End Traversal.

(** ** A store to run the methods on

    The nodes 5, 3, 8, 1, 4 of a search tree, built by hand: 1 holds 5, its
    sons 2 and 3 hold 3 and 8, the sons 4 and 5 of 2 hold 1 and 4. *)
Definition sample_ops : list (op nat) :=
  [New 5; InsertLeft 1 3; InsertRight 1 8; InsertLeft 2 1; InsertRight 2 4].
Definition sample : heap nat := run sample_ops ∅.

(** The shape below node 1 of [sample]. *)
Definition sample_shape : shape :=
  Br (Br (Br Leaf 4 Leaf) 2 (Br Leaf 5 Leaf)) 1 (Br Leaf 3 Leaf).

(** ** What the four getters read after each operation *)

Section getters.
Context {T : Type}.
Implicit Types (h : heap T) (this c x : loc) (d : T).
Import BinaryTreeNode.

Lemma fresh_not_live h : h !! fresh (dom h) = None.
Proof. apply not_elem_of_dom, is_fresh. Qed.

Lemma father_live h x f : father h x = Some f → is_Some (h !! x).
Proof. unfold father. destruct (h !! x); naive_solver. Qed.
Lemma left_live h x c : left h x = Some c → is_Some (h !! x).
Proof. unfold left. destruct (h !! x); naive_solver. Qed.
Lemma right_live h x c : right h x = Some c → is_Some (h !! x).
Proof. unfold right. destruct (h !! x); naive_solver. Qed.

(** The constructor changes no link and no level that could be read. *)
Lemma new_spec d h :
  let h' := (new d h).2 in
  (∀ x, father h' x = father h x) ∧ (∀ x, left h' x = left h x) ∧
  (∀ x, right h' x = right h x) ∧ (∀ x, level h' x = level h x) ∧
  dom h' = {[fresh (dom h)]} ∪ dom h.
Proof.
  pose proof (fresh_not_live h) as Hc. cbn.
  unfold father, left, right, level.
  repeat split; try (intros x; destruct (decide (x = fresh (dom h))) as [->|];
    [rewrite lookup_insert_eq, Hc | rewrite lookup_insert_ne by done]; done).
  apply dom_insert_L.
Qed.

(** The store that a successful [insertLeft] leaves. *)
Lemma insertLeft_normal h this d nd :
  h !! this = Some nd → p_left nd = None →
  let c := fresh (dom h) in
  insertLeft this d h =
    (Normal this,
     <[this := with_left (Some c) nd]>
       (<[c := Node d (Some this) None None (p_level nd + 1)]> h)).
Proof.
  intros Hthis Hl c. pose proof (fresh_not_live h) as Hc. fold c in Hc.
  assert (this ≠ c) as Hne by congruence.
  unfold insertLeft, bind, gets, throw, new, assign, ret, left, level.
  rewrite Hthis. cbn. rewrite Hl. fold c. f_equal.
  rewrite lookup_alter_ne, lookup_alter_eq, lookup_insert_ne, Hthis by done.
  cbn. apply map_eq; intros x.
  destruct (decide (x = c)) as [->|]; [|destruct (decide (x = this)) as [->|]].
  - rewrite lookup_alter_eq, lookup_alter_eq, lookup_alter_ne, lookup_insert_eq by done.
    rewrite lookup_insert_ne, lookup_insert_eq by done. done.
  - rewrite !lookup_alter_ne, lookup_alter_eq, lookup_insert_ne, Hthis by done.
    rewrite lookup_insert_eq. done.
  - rewrite !lookup_alter_ne, !lookup_insert_ne by done. done.
Qed.

Lemma insertRight_normal h this d nd :
  h !! this = Some nd → p_right nd = None →
  let c := fresh (dom h) in
  insertRight this d h =
    (Normal this,
     <[this := with_right (Some c) nd]>
       (<[c := Node d (Some this) None None (p_level nd + 1)]> h)).
Proof.
  intros Hthis Hl c. pose proof (fresh_not_live h) as Hc. fold c in Hc.
  assert (this ≠ c) as Hne by congruence.
  unfold insertRight, bind, gets, throw, new, assign, ret, right, level.
  rewrite Hthis. cbn. rewrite Hl. fold c. f_equal.
  rewrite lookup_alter_ne, lookup_alter_eq, lookup_insert_ne, Hthis by done.
  cbn. apply map_eq; intros x.
  destruct (decide (x = c)) as [->|]; [|destruct (decide (x = this)) as [->|]].
  - rewrite lookup_alter_eq, lookup_alter_eq, lookup_alter_ne, lookup_insert_eq by done.
    rewrite lookup_insert_ne, lookup_insert_eq by done. done.
  - rewrite !lookup_alter_ne, lookup_alter_eq, lookup_insert_ne, Hthis by done.
    rewrite lookup_insert_eq. done.
  - rewrite !lookup_alter_ne, !lookup_insert_ne by done. done.
Qed.

Lemma insertLeft_throws h this d c :
  left h this = Some c → insertLeft this d h = (Thrown InvalidInsertion, h).
Proof. intros Hl. unfold insertLeft, bind, gets. cbn. by rewrite Hl. Qed.

Lemma insertRight_throws h this d c :
  right h this = Some c → insertRight this d h = (Thrown InvalidInsertion, h).
Proof. intros Hl. unfold insertRight, bind, gets. cbn. by rewrite Hl. Qed.
End getters.

(** ** Well-formed stores *)

Section wf.
Context {T : Type}.
Implicit Types (h : heap T) (this c f n x : loc) (d : T).
Import BinaryTreeNode.

Lemma wf_empty : wf (∅ : heap T).
Proof. split; unfold father, left, right, level; intros *; by rewrite ?lookup_empty. Qed.

Lemma wf_new d h : wf h → wf (new d h).2.
Proof.
  intros [H1 H2 H3 H4 H5].
  destruct (new_spec d h) as (Hf & Hl & Hr & Hv & _).
  split; intros *; rewrite ?Hf, ?Hl, ?Hr, ?Hv; auto.
Qed.

(** What is read in the store of [insertLeft_normal]. *)
Lemma grow_left_spec h this c d nd :
  h !! this = Some nd → h !! c = None →
  let h' := <[this := with_left (Some c) nd]>
              (<[c := Node d (Some this) None None (p_level nd + 1)]> h) in
  (∀ x, father h' x = if decide (x = c) then Some this else father h x) ∧
  (∀ x, left h' x = if decide (x = this) then Some c else left h x) ∧
  (∀ x, right h' x = right h x) ∧
  (∀ x, level h' x = if decide (x = c) then level h this + 1 else level h x).
Proof.
  intros Hthis Hc h'. assert (this ≠ c) as Hne by congruence.
  unfold h', father, left, right, level. rewrite Hthis. cbn.
  repeat split; intros x;
    (destruct (decide (x = this)) as [->|];
     [rewrite lookup_insert_eq, ?Hthis; by repeat case_decide
     |rewrite lookup_insert_ne by done;
      destruct (decide (x = c)) as [->|];
      [rewrite lookup_insert_eq, ?Hc|rewrite lookup_insert_ne by done]; done]).
Qed.

Lemma grow_right_spec h this c d nd :
  h !! this = Some nd → h !! c = None →
  let h' := <[this := with_right (Some c) nd]>
              (<[c := Node d (Some this) None None (p_level nd + 1)]> h) in
  (∀ x, father h' x = if decide (x = c) then Some this else father h x) ∧
  (∀ x, left h' x = left h x) ∧
  (∀ x, right h' x = if decide (x = this) then Some c else right h x) ∧
  (∀ x, level h' x = if decide (x = c) then level h this + 1 else level h x).
Proof.
  intros Hthis Hc h'. assert (this ≠ c) as Hne by congruence.
  unfold h', father, left, right, level. rewrite Hthis. cbn.
  repeat split; intros x;
    (destruct (decide (x = this)) as [->|];
     [rewrite lookup_insert_eq, ?Hthis; by repeat case_decide
     |rewrite lookup_insert_ne by done;
      destruct (decide (x = c)) as [->|];
      [rewrite lookup_insert_eq, ?Hc|rewrite lookup_insert_ne by done]; done]).
Qed.

(** No link of a well-formed store leads to a location outside of it. *)
Lemma wf_closed h c :
  wf h → h !! c = None →
  father h c = None ∧ left h c = None ∧ right h c = None ∧ level h c = 0 ∧
  (∀ x, father h x ≠ Some c) ∧ (∀ x, left h x ≠ Some c) ∧
  (∀ x, right h x ≠ Some c).
Proof.
  intros [H1 H2 H3 H4 H5] Hc.
  assert (father h c = None ∧ left h c = None ∧ right h c = None ∧
          level h c = 0) as (Hf & Hl & Hr & Hv)
    by (unfold father, left, right, level; by rewrite Hc).
  repeat split; try done; intros x Hx.
  - apply H3 in Hx. destruct Hx; congruence.
  - apply H1 in Hx. destruct Hx; congruence.
  - apply H2 in Hx. destruct Hx; congruence.
Qed.

Lemma wf_grow_left h this c d nd :
  wf h → h !! this = Some nd → p_left nd = None → h !! c = None →
  wf (<[this := with_left (Some c) nd]>
        (<[c := Node d (Some this) None None (p_level nd + 1)]> h)).
Proof.
  intros Hwf Hthis Hnl Hc.
  destruct (grow_left_spec h this c d nd Hthis Hc) as (Hf & Hl & Hr & Hv).
  destruct (wf_closed h c Hwf Hc) as (Cf & Cl & Cr & Cv & Nf & Nl & Nr).
  assert (left h this = None) as Hthisl by (unfold left; by rewrite Hthis).
  assert (this ≠ c) as Hne by congruence.
  destruct Hwf as [H1 H2 H3 H4 H5].
  split; intros *; rewrite ?Hf, ?Hl, ?Hr, ?Hv; repeat case_decide; subst;
    try congruence; intros Hx; simplify_eq.
  all: try by (exfalso; eapply Nl).
  all: try by (exfalso; eapply Nr).
  all: try by (exfalso; eapply Nf).
  all: eauto.
  destruct (H3 _ _ Hx); [congruence | by right].
Qed.

Lemma wf_grow_right h this c d nd :
  wf h → h !! this = Some nd → p_right nd = None → h !! c = None →
  wf (<[this := with_right (Some c) nd]>
        (<[c := Node d (Some this) None None (p_level nd + 1)]> h)).
Proof.
  intros Hwf Hthis Hnl Hc.
  destruct (grow_right_spec h this c d nd Hthis Hc) as (Hf & Hl & Hr & Hv).
  destruct (wf_closed h c Hwf Hc) as (Cf & Cl & Cr & Cv & Nf & Nl & Nr).
  assert (right h this = None) as Hthisl by (unfold right; by rewrite Hthis).
  assert (this ≠ c) as Hne by congruence.
  destruct Hwf as [H1 H2 H3 H4 H5].
  split; intros *; rewrite ?Hf, ?Hl, ?Hr, ?Hv; repeat case_decide; subst;
    try congruence; intros Hx; simplify_eq.
  all: try by (exfalso; eapply Nl).
  all: try by (exfalso; eapply Nr).
  all: try by (exfalso; eapply Nf).
  all: eauto.
  destruct (H3 _ _ Hx); [by left | congruence].
Qed.

(** Every operation of a program preserves well-formedness. *)
Lemma wf_step h o : wf h → wf (step h o).
Proof.
  intros Hwf. destruct o as [d|this d|this d]; unfold step; cbn [receiver exec].
  - by apply wf_new.
  - case_decide as Hin; [|done]. apply elem_of_dom in Hin as [nd Hnd].
    destruct (p_left nd) as [c|] eqn:Hl.
    + erewrite insertLeft_throws; [done|]. unfold left. by rewrite Hnd.
    + erewrite insertLeft_normal by done. cbn.
      apply wf_grow_left; auto using fresh_not_live.
  - case_decide as Hin; [|done]. apply elem_of_dom in Hin as [nd Hnd].
    destruct (p_right nd) as [c|] eqn:Hl.
    + erewrite insertRight_throws; [done|]. unfold right. by rewrite Hnd.
    + erewrite insertRight_normal by done. cbn.
      apply wf_grow_right; auto using fresh_not_live.
Qed.

Lemma wf_run ops h : wf h → wf (run ops h).
Proof.
  revert h. induction ops as [|o ops IH]; intros h Hwf; [done|].
  cbn. apply IH, wf_step, Hwf.
Qed.

Lemma reachable_wf h : reachable h → wf h.
Proof. intros [ops <-]. apply wf_run, wf_empty. Qed.
End wf.

(** ** Father chains *)

Section chains.
Context {T : Type}.
Implicit Types (h : heap T) (this c f n x : loc) (tree node : BTNode).
Import BinaryTreeNode.

Lemma son_of_father_of h n c : wf h → son_of h n c ↔ father_of h c n.
Proof.
  intros Hwf. split.
  - intros [Hl|Hr]; [by apply (wf_left h Hwf)|by apply (wf_right h Hwf)].
  - apply (wf_father h Hwf).
Qed.

Lemma father_of_level h x f :
  wf h → father_of h x f → level h x = level h f + 1.
Proof.
  intros Hwf Hf. destruct (wf_father h Hwf _ _ Hf) as [Hl|Hr].
  - by apply (wf_left h Hwf).
  - by apply (wf_right h Hwf).
Qed.

Lemma rtc_father_of_level h x y :
  wf h → rtc (father_of h) x y → level h y ≤ level h x.
Proof.
  intros Hwf. induction 1 as [|x f y Hf _ IH]; [done|].
  apply (father_of_level h _ _ Hwf) in Hf. lia.
Qed.

Lemma tc_father_of_level h x y :
  wf h → tc (father_of h) x y → level h y < level h x.
Proof.
  intros Hwf. induction 1 as [x y Hf|x f y Hf _ IH];
    apply (father_of_level h _ _ Hwf) in Hf; lia.
Qed.

Lemma father_of_functional h x f f' :
  father_of h x f → father_of h x f' → f = f'.
Proof. unfold father_of. congruence. Qed.

(** The loop of [root] stops once the fuel exceeds the level. *)
Lemma root_loop_spec h fuel n :
  wf h → level h n < fuel →
  ∃ r, root_loop fuel h n = Some r ∧ rtc (father_of h) n r ∧
       father h r = None.
Proof.
  intros Hwf. revert n. induction fuel as [|fuel IH]; intros n Hlt; [lia|].
  cbn. destruct (father h n) as [f|] eqn:Hf.
  - pose proof (father_of_level h n f Hwf Hf).
    destruct (IH f) as (r & Hr & Hrtc & Hroot); [lia|].
    exists r. split_and!; [done| |done]. by eapply rtc_l.
  - exists n. done.
Qed.

(** A father chain ends in at most one node without father. *)
Lemma rtc_father_of_root_unique h n r r' :
  rtc (father_of h) n r → father h r = None →
  rtc (father_of h) n r' → father h r' = None → r = r'.
Proof.
  intros Hr Hroot. revert r'.
  induction Hr as [r|n f r Hf _ IH]; intros r' Hr' Hroot'.
  - destruct Hr' as [|r f r' Hf _]; [done|]. unfold father_of in Hf. congruence.
  - destruct Hr' as [|n f' r' Hf' Hr']; [unfold father_of in Hf; congruence|].
    rewrite (father_of_functional h _ _ _ Hf' Hf) in Hr'. by apply IH.
Qed.

(** The loop of [ancestor], entered at [node]. *)
Lemma ancestor_loop_spec h fuel tree node :
  wf h → from_option (λ m, S (level h m)) 0 node < fuel →
  ∃ b, ancestor_loop fuel h tree node = Some b ∧
       (b = true ↔ ∃ m c, node = Some m ∧ tree = Some c ∧
                          rtc (father_of h) m c).
Proof.
  intros Hwf. revert node.
  induction fuel as [|fuel IH]; intros node Hlt; [lia|].
  cbn. destruct node as [m|]; cbn in Hlt.
  - case_decide as Heq.
    + exists true. split; [done|]. split; [intros _|done].
      exists m, m. by rewrite <-Heq.
    + destruct (IH (father h m)) as (b & Hb & Hiff).
      { destruct (father h m) as [f|] eqn:Hf; cbn; [|lia].
        pose proof (father_of_level h m f Hwf Hf). lia. }
      exists b. split; [done|]. rewrite Hiff. split.
      * intros (f & c & Hf & -> & Hrtc). exists m, c.
        split_and!; [done..|]. by eapply rtc_l.
      * intros (? & c & [= <-] & -> & Hrtc).
        destruct Hrtc as [|m f c Hf Hrtc]; [done|]. by exists f, c.
  - exists false. split; [done|]. split; [done|]. by intros (? & ? & ? & _).
Qed.
(** Going up along fathers is going down along sons, read backwards. *)
Lemma tc_father_of_son_of h (a b : loc) :
  wf h → tc (father_of h) a b ↔ tc (son_of h) b a.
Proof.
  intros Hwf. split.
  - induction 1 as [a b Hf|a m b Hf _ IH].
    + by apply tc_once, son_of_father_of.
    + eapply tc_r; [done|]. by apply son_of_father_of.
  - induction 1 as [b a Hs|b m a Hs _ IH].
    + by apply tc_once, son_of_father_of.
    + eapply tc_r; [done|]. by apply son_of_father_of.
Qed.

Lemma rtc_father_of_son_of h (a b : loc) :
  wf h → rtc (father_of h) a b ↔ rtc (son_of h) b a.
Proof.
  intros Hwf. rewrite !rtc_tc, tc_father_of_son_of by done. naive_solver.
Qed.

(** Two ancestors of a node on the same level are one node. *)
Lemma same_level_ancestor h x (a b : loc) :
  wf h → rtc (father_of h) x a → rtc (father_of h) x b →
  level h a = level h b → a = b.
Proof.
  intros Hwf Ha. revert b.
  induction Ha as [x|x f a Hf Ha IH]; intros b Hb Hlevel.
  - destruct Hb as [|x f b Hf Hb]; [done|].
    apply (rtc_father_of_level h _ _ Hwf) in Hb.
    apply (father_of_level h _ _ Hwf) in Hf. lia.
  - destruct Hb as [|x f' b Hf' Hb].
    + apply (rtc_father_of_level h _ _ Hwf) in Ha.
      apply (father_of_level h _ _ Hwf) in Hf. lia.
    + rewrite (father_of_functional h _ _ _ Hf' Hf) in Hb. by apply IH.
Qed.

(** The father chain of a node of the store consists of one node of the
    store per level, so that a level is below the number of nodes. *)
Lemma level_lt_size h n : wf h → n ∈ dom h → level h n < size h.
Proof.
  intros Hwf Hn.
  assert (∀ k n, level h n = k → n ∈ dom h →
            ∃ l : list loc, NoDup l ∧ length l = S k ∧
              ∀ x, x ∈ l → x ∈ dom h ∧ level h x ≤ k) as Hchain.
  { clear n Hn. induction k as [|k IH]; intros n Hk Hn.
    - exists [n]. split_and!; [apply NoDup_singleton|done|].
      intros x ->%list_elem_of_singleton. split; [done|lia].
    - destruct (father h n) as [f|] eqn:Hf.
      2:{ apply (wf_root h Hwf) in Hf. lia. }
      pose proof (father_of_level h n f Hwf Hf) as Hlevel.
      destruct (IH f) as (l & Hnodup & Hlen & Hl); [lia| |].
      { apply elem_of_dom.
        destruct (wf_father h Hwf _ _ Hf); eauto using left_live, right_live. }
      exists (n :: l). split_and!.
      + apply NoDup_cons. split; [|done]. intros [_ ?]%Hl. lia.
      + cbn. by rewrite Hlen.
      + intros x [->|[??]%Hl]%elem_of_cons; split; (done || lia). }
  destruct (Hchain _ n eq_refl Hn) as (l & Hnodup & Hlen & Hl).
  assert (length l ≤ size (dom h)) as Hle.
  { rewrite <-(size_list_to_set (C:=gset loc) l) by done.
    apply subseteq_size. intros x Hx%elem_of_list_to_set. by apply Hl. }
  rewrite size_dom in Hle. lia.
Qed.

Lemma level_le_size h n : wf h → level h n ≤ size h.
Proof.
  intros Hwf. destruct (h !! n) as [nd|] eqn:Hn.
  - apply Nat.lt_le_incl, level_lt_size; [done|]. by apply elem_of_dom.
  - unfold level. rewrite Hn. cbn. lia.
Qed.
End chains.

(** ** The search of [descendant] *)

Section search.
Context {T : Type}.
Implicit Types (h : heap T) (this c f n x : loc) (tree node : BTNode).
Implicit Types (t : shape) (vts : list (BTNode * shape)).
Import BinaryTreeNode.

Lemma levels_bounded h : ∃ D, ∀ n, level h n ≤ D.
Proof.
  induction h as [|i nd h Hi _ [D IH]] using map_first_key_ind.
  - exists 0. intros n. unfold level. by rewrite lookup_empty.
  - exists (D `max` p_level nd). intros n. specialize (IH n). revert IH.
    unfold level. destruct (decide (n = i)) as [->|].
    + rewrite lookup_insert_eq. cbn. lia.
    + rewrite lookup_insert_ne by done. lia.
Qed.

(** Every reference of a well-formed store has a shape: the levels grow
    along the sons and are bounded. *)
Lemma repr_exists h node : wf h → ∃ t, repr h node t.
Proof.
  intros Hwf. destruct (levels_bounded h) as [D HD].
  assert (∀ k n, D ≤ level h n + k → ∃ t, repr h (Some n) t) as Hnode.
  { induction k as [|k IH]; intros n Hn.
    - exists (Br Leaf n Leaf).
      constructor.
      + destruct (left h n) as [c|] eqn:Hc; [|constructor].
        apply (wf_left h Hwf) in Hc as [_ Hc]. specialize (HD c). lia.
      + destruct (right h n) as [c|] eqn:Hc; [|constructor].
        apply (wf_right h Hwf) in Hc as [_ Hc]. specialize (HD c). lia.
    - assert (∃ tl, repr h (left h n) tl) as [tl Htl].
      { destruct (left h n) as [c|] eqn:Hc; [|exists Leaf; constructor].
        apply IH. apply (wf_left h Hwf) in Hc as [_ Hc]. lia. }
      assert (∃ tr, repr h (right h n) tr) as [tr Htr].
      { destruct (right h n) as [c|] eqn:Hc; [|exists Leaf; constructor].
        apply IH. apply (wf_right h Hwf) in Hc as [_ Hc]. lia. }
      exists (Br tl n tr). by constructor. }
  destruct node as [n|]; [|exists Leaf; constructor].
  apply (Hnode D). lia.
Qed.

(** The nodes of a shape are the nodes reached along the sons. *)
Lemma elem_of_nodes h node t c :
  repr h node t →
  c ∈ nodes t ↔ ∃ n, node = Some n ∧ rtc (son_of h) n c.
Proof.
  induction 1 as [|n tl tr _ IHl _ IHr]; cbn.
  - rewrite elem_of_nil. split; [done|]. by intros (? & ? & _).
  - rewrite elem_of_cons, elem_of_app, IHl, IHr. split.
    + intros [->|[(m & Hm & Hrtc)|(m & Hm & Hrtc)]].
      * by exists n.
      * exists n. split; [done|]. eapply rtc_l; [|done]. by left.
      * exists n. split; [done|]. eapply rtc_l; [|done]. by right.
    + intros (? & [= <-] & Hrtc).
      destruct Hrtc as [|n m c [Hm|Hm] Hrtc]; [by left|right; left|right; right];
        by exists m.
Qed.

(** One turn of the loop pushes sons that are nodes, and nothing else. *)
Lemma descendant_body_spec h node (visited : Stack.t BTNode) :
  ∃ pushed,
    descendant_body h node visited = pushed ++ visited ∧
    pushed = omap (λ s, Some <$> s) [node ≫= right h; node ≫= left h].
Proof.
  unfold descendant_body, Stack.push. cbn.
  destruct (node ≫= left h), (node ≫= right h); cbn;
    (eexists; split; [|reflexivity]; reflexivity).
Qed.

Lemma repr_pops h node t :
  repr h node t →
  (if node is Some _ then pops t else 0) = length (nodes t).
Proof. by destruct 1. Qed.

(** The loop, run on a stack whose entries have the shapes [vts.*2]: it
    takes one turn per entry and per node below an entry, and finds [tree]
    exactly when an entry answers the search. *)
Lemma descendant_loop_spec h tree fuel vts :
  Forall (λ p, repr h p.1 p.2) vts →
  sum_list_with (pops ∘ snd) vts < fuel →
  ∃ b, descendant_loop fuel h tree (vts.*1) = Some b ∧
       (b = true ↔ Exists (occurs tree) vts).
Proof.
  revert vts. induction fuel as [|fuel IH]; intros vts Hrepr Hlt; [lia|].
  destruct vts as [|[v t] rest]; cbn.
  { exists false. split; [done|]. rewrite Exists_nil. done. }
  apply Forall_cons in Hrepr as [Hv Hrest]. cbn in Hv, Hlt.
  case_decide as Heq.
  { exists true. split; [done|]. split; [intros _|done].
    apply Exists_cons_hd. subst tree. unfold occurs. cbn.
    destruct Hv; [done|]. cbn. set_solver. }
  destruct Hv as [|n tl tr Hl Hr].
  - (* a [null] entry: nothing is pushed *)
    destruct (IH rest) as (b & Hb & Hiff); [done|cbn in Hlt; lia|].
    exists b. split; [done|]. rewrite Hiff, Exists_cons.
    unfold occurs at 2. cbn. destruct tree as [c|]; [|done].
    rewrite elem_of_nil. tauto.
  - (* a node: its sons that are nodes are pushed, the right one on top *)
    destruct (descendant_body_spec h (Some n) (rest.*1)) as (pushed & -> & ->).
    cbn in Hlt. cbn [mbind option_bind].
    destruct (IH (omap (λ p : BTNode * shape, (λ c, (Some c, p.2)) <$> p.1)
                       [(right h n, tr); (left h n, tl)] ++ rest))
      as (b & Hb & Hiff).
    { apply Forall_app. split; [|done]. cbn.
      destruct (right h n), (left h n); cbn; repeat constructor; done. }
    { rewrite sum_list_with_app. cbn. rewrite length_app in Hlt.
      apply repr_pops in Hl, Hr.
      destruct (right h n), (left h n); cbn; lia. }
    exists b. split.
    { rewrite <-Hb. f_equal. rewrite fmap_app. f_equal.
      cbn. destruct (right h n), (left h n); done. }
    rewrite Hiff, Exists_app, Exists_cons. unfold occurs at 3. cbn.
    assert (Exists (occurs tree)
              (omap (λ p : BTNode * shape, (λ c, (Some c, p.2)) <$> p.1)
                 [(right h n, tr); (left h n, tl)]) ↔
            match tree with
            | None => False
            | Some c => c ∈ nodes tr ∨ c ∈ nodes tl
            end) as ->.
    { cbn. destruct tree as [c|]; unfold occurs.
      - destruct Hl, Hr; cbn; rewrite ?Exists_cons, ?Exists_nil; cbn; set_solver.
      - destruct (right h n), (left h n); cbn;
          rewrite ?Exists_cons, ?Exists_nil; cbn; naive_solver. }
    destruct tree as [c|]; [|naive_solver].
    rewrite elem_of_cons, elem_of_app.
    assert (c ≠ n) by congruence. naive_solver.
Qed.

Lemma tc_son_of_split h n c :
  tc (son_of h) n c ↔ ∃ m, son_of h n m ∧ rtc (son_of h) m c.
Proof.
  split.
  - intros Htc. destruct Htc as [n c Hs|n m c Hs Htc].
    + by exists c.
    + exists m. split; [done|]. by apply tc_rtc.
  - intros (m & Hs & Hrtc). eapply tc_rtc_r; [|done]. by apply tc_once.
Qed.

(** A shape lists each node once. *)
Lemma nodes_NoDup h node t : wf h → repr h node t → NoDup (nodes t).
Proof.
  intros Hwf. induction 1 as [|n tl tr Hl IHl Hr IHr]; cbn.
  { apply NoDup_nil_2. }
  assert (∀ s t c, repr h (slot_get h s n) t → c ∈ nodes t →
            ∃ m, slot_get h s n = Some m ∧ rtc (father_of h) c m ∧
                 level h m = level h n + 1) as Hbelow.
  { intros s t c Ht Hc.
    apply (elem_of_nodes h _ _ c Ht) in Hc as (m & Hm & Hrtc).
    exists m. split_and!; [done|by apply rtc_father_of_son_of|].
    destruct s; [by apply (wf_left h Hwf)|by apply (wf_right h Hwf)]. }
  apply NoDup_cons. split; [|apply NoDup_app; split_and!; [done| |done]].
  - intros [Hc|Hc]%elem_of_app.
    + destruct (Hbelow SlotLeft _ _ Hl Hc) as (m & _ & Hrtc & Hlevel).
      apply (rtc_father_of_level h _ _ Hwf) in Hrtc. lia.
    + destruct (Hbelow SlotRight _ _ Hr Hc) as (m & _ & Hrtc & Hlevel).
      apply (rtc_father_of_level h _ _ Hwf) in Hrtc. lia.
  - intros c Hcl Hcr.
    destruct (Hbelow SlotLeft _ _ Hl Hcl) as (l & Hleft & Hrtcl & Hlevell).
    destruct (Hbelow SlotRight _ _ Hr Hcr) as (r & Hright & Hrtcr & Hlevelr).
    cbn in Hleft, Hright.
    assert (l = r) as ->
      by (eapply (same_level_ancestor h c); [done..|lia]).
    by apply (wf_sons h Hwf) in Hleft.
Qed.

(** The nodes below a node are nodes of the store, so there are no more of
    them than the store has. *)
Lemma nodes_below_size h this tl tr :
  wf h → repr h (left h this) tl → repr h (right h this) tr →
  length (nodes tl ++ nodes tr) ≤ size h.
Proof.
  intros Hwf Hl Hr.
  assert (NoDup (nodes tl ++ nodes tr)) as Hnodup.
  { assert (repr h (Some this) (Br tl this tr)) as Ht by by constructor.
    apply (nodes_NoDup h _ _ Hwf) in Ht. by apply NoDup_cons in Ht as [_ ?]. }
  rewrite <-size_dom, <-(size_list_to_set (C:=gset loc)) by done.
  apply subseteq_size. intros c Hc%elem_of_list_to_set.
  assert (∃ m, son_of h this m ∧ rtc (son_of h) m c) as (m & Hm & Hrtc).
  { apply elem_of_app in Hc as [Hc|Hc].
    - apply (elem_of_nodes h _ _ c Hl) in Hc as (m & ? & ?).
      exists m. split; [by left|done].
    - apply (elem_of_nodes h _ _ c Hr) in Hc as (m & ? & ?).
      exists m. split; [by right|done]. }
  assert (tc (father_of h) c this) as Htc.
  { apply tc_father_of_son_of; [done|]. eapply tc_rtc_r; [|done].
    by apply tc_once. }
  apply elem_of_dom. destruct Htc as [c ? Hf|c ? ? Hf _]; by eapply father_live.
Qed.

(** The whole method: it returns within one turn per node of the store and
    three more. *)
Lemma descendant_spec h this tree fuel :
  wf h → size h + 3 ≤ fuel →
  ∃ b, descendant fuel h this tree = Some b ∧
       (b = true ↔
        match tree with
        | None => left h this = None ∨ right h this = None
        | Some c => tc (son_of h) this c
        end).
Proof.
  intros Hwf Hfuel.
  destruct (repr_exists h (left h this) Hwf) as [tl Hl].
  destruct (repr_exists h (right h this) Hwf) as [tr Hr].
  destruct (descendant_loop_spec h tree fuel
              [(right h this, tr); (left h this, tl)]) as (b & Hb & Hiff).
  { repeat constructor; done. }
  { pose proof (nodes_below_size h this tl tr Hwf Hl Hr) as Hsize.
    rewrite length_app in Hsize. cbn.
    assert (∀ t, pops t ≤ S (length (nodes t))) as Hpops
      by (intros []; cbn; lia).
    pose proof (Hpops tl). pose proof (Hpops tr). lia. }
  exists b. split; [exact Hb|]. rewrite Hiff, !Exists_cons, Exists_nil.
  unfold occurs. cbn. destruct tree as [c|]; [|tauto].
  rewrite (elem_of_nodes h _ _ c Hl), (elem_of_nodes h _ _ c Hr).
  rewrite tc_son_of_split. unfold son_of at 3. naive_solver.
Qed.
End search.

(** ** The insertion methods *)

Section insertion.
Context {T : Type}.
Implicit Types (h : heap T) (this c f n x : loc) (d : T).
Import BinaryTreeNode.

Lemma insertLeft_completion h n d :
  (insertLeft n d h).1 =
    if left h n is Some _ then Thrown InvalidInsertion else Normal n.
Proof.
  unfold insertLeft, bind, gets. cbn. by destruct (left h n).
Qed.

Lemma insertRight_completion h n d :
  (insertRight n d h).1 =
    if right h n is Some _ then Thrown InvalidInsertion else Normal n.
Proof.
  unfold insertRight, bind, gets. cbn. by destruct (right h n).
Qed.

(** C1: [insertLeft] (and [insertRight]) throws [InvalidInsertion], the
    DuplicateSlot error, exactly when the left (right) slot of the node
    holds a node, and a call that throws leaves the store as it was, so
    that no father, son or level has changed. *)
Theorem insert_throws_iff_slot_occupied h n d :
  ((insertLeft n d h).1 = Thrown InvalidInsertion ↔ is_Some (left h n)) ∧
  ((insertRight n d h).1 = Thrown InvalidInsertion ↔ is_Some (right h n)) ∧
  ((insertLeft n d h).1 = Thrown InvalidInsertion →
     (insertLeft n d h).2 = h) ∧
  ((insertRight n d h).1 = Thrown InvalidInsertion →
     (insertRight n d h).2 = h).
Proof.
  rewrite insertLeft_completion, insertRight_completion. split_and!.
  - destruct (left h n); split; (done || by intros []).
  - destruct (right h n); split; (done || by intros []).
  - destruct (left h n) as [c|] eqn:Hl; [|done].
    intros _. by erewrite insertLeft_throws.
  - destruct (right h n) as [c|] eqn:Hr; [|done].
    intros _. by erewrite insertRight_throws.
Qed.


End insertion.


(** ** Levels *)

Section levels.
Context {T : Type}.
Implicit Types (h : heap T) (this c f n x : loc) (d : T).
Import BinaryTreeNode.

(** No operation removes a node or changes the level of one. *)
Lemma step_level h o n :
  n ∈ dom h → n ∈ dom (step h o) ∧ level (step h o) n = level h n.
Proof.
  intros Hn. destruct o as [d|this d|this d]; unfold step; cbn [receiver exec].
  - destruct (new_spec d h) as (_ & _ & _ & Hv & Hdom).
    rewrite Hv, Hdom. set_solver.
  - case_decide as Hin; [|done]. apply elem_of_dom in Hin as [nd Hnd].
    destruct (p_left nd) as [c|] eqn:Hl.
    { erewrite insertLeft_throws; [done|]. unfold left. by rewrite Hnd. }
    erewrite insertLeft_normal by done. cbn.
    pose proof (fresh_not_live h) as Hc.
    destruct (grow_left_spec h this _ d nd Hnd Hc) as (_ & _ & _ & ->).
    rewrite !dom_insert_L. split; [set_solver|].
    case_decide as Heq; [|done]. subst n.
    apply elem_of_dom in Hn as [? Hn]. congruence.
  - case_decide as Hin; [|done]. apply elem_of_dom in Hin as [nd Hnd].
    destruct (p_right nd) as [c|] eqn:Hl.
    { erewrite insertRight_throws; [done|]. unfold right. by rewrite Hnd. }
    erewrite insertRight_normal by done. cbn.
    pose proof (fresh_not_live h) as Hc.
    destruct (grow_right_spec h this _ d nd Hnd Hc) as (_ & _ & _ & ->).
    rewrite !dom_insert_L. split; [set_solver|].
    case_decide as Heq; [|done]. subst n.
    apply elem_of_dom in Hn as [? Hn]. congruence.
Qed.

Lemma run_level ops h n :
  n ∈ dom h → n ∈ dom (run ops h) ∧ level (run ops h) n = level h n.
Proof.
  revert h. induction ops as [|o ops IH]; intros h Hn; [done|]. cbn.
  destruct (step_level h o n Hn) as [Hn' <-]. by apply IH.
Qed.

(** C6: level consistency holds in every store that a program builds: a
    node fresh from the constructor has level 0 (and so has every node
    without father), a left son and a right son lie one level below their
    father, and whatever the program does next, the level of a node that
    exists stays what it is. *)
Theorem level_consistency_invariant (ops : list (op T)) :
  let h := run ops ∅ in
  (∀ d, ∃ c, (new d h).1 = Normal c ∧ (c ∉ dom h) ∧
             level (new d h).2 c = 0 ∧ isRoot (new d h).2 c = true) ∧
  (∀ n, isRoot h n = true → level h n = 0) ∧
  (∀ n c, left h n = Some c → level h c = level h n + 1) ∧
  (∀ n c, right h n = Some c → level h c = level h n + 1) ∧
  (∀ ops' n, n ∈ dom h → level (run ops' h) n = level h n).
Proof.
  intros h. assert (wf h) as Hwf by (apply wf_run, wf_empty).
  split_and!.
  - intros d. exists (fresh (dom h)). pose proof (fresh_not_live h) as Hc.
    split_and!; [done|apply is_fresh| |].
    + unfold level. cbn. by rewrite lookup_insert_eq.
    + unfold isRoot, father. cbn. by rewrite lookup_insert_eq.
  - intros n Hn. apply (wf_root h Hwf). unfold isRoot in Hn.
    by apply bool_decide_eq_true in Hn.
  - intros n c Hc. by apply (wf_left h Hwf).
  - intros n c Hc. by apply (wf_right h Hwf).
  - intros ops' n Hn. by apply run_level.
Qed.
End levels.

(** ** Brother, root and ancestor *)

Section upwards.
Context {T : Type}.
Implicit Types (h : heap T) (this c f n x : loc) (tree node : BTNode).
Import BinaryTreeNode.

(** C7: [n.brother] is the content of the slot of [n.father] opposite to
    the slot that holds [n]; it is [null] exactly when [n] is the root or
    that opposite slot is empty. *)
Theorem brother_is_opposite_slot h n :
  reachable h →
  (∀ f s, father h n = Some f → slot_get h s f = Some n →
          brother h n = slot_get h (opposite s) f) ∧
  (brother h n = None ↔
   isRoot h n = true ∨
   ∃ f s, father h n = Some f ∧ slot_get h s f = Some n ∧
          slot_get h (opposite s) f = None).
Proof.
  intros Hwf%reachable_wf.
  assert (∀ f s, father h n = Some f → slot_get h s f = Some n →
                 brother h n = slot_get h (opposite s) f) as Hopp.
  { intros f s Hf Hs. unfold brother, isLeft. rewrite Hf.
    destruct s; cbn in *.
    - by rewrite bool_decide_eq_true_2.
    - rewrite bool_decide_eq_false_2; [done|].
      intros Hl. by apply (wf_sons h Hwf) in Hl. }
  split; [exact Hopp|]. unfold isRoot. rewrite bool_decide_eq_true. split.
  - intros Hb. destruct (father h n) as [f|] eqn:Hf; [right|by left].
    destruct (wf_father h Hwf _ _ Hf) as [Hs|Hs].
    + exists f, SlotLeft. rewrite <-(Hopp f SlotLeft); done.
    + exists f, SlotRight. rewrite <-(Hopp f SlotRight); done.
  - intros [Hroot|(f & s & Hf & Hs & Ho)].
    + unfold brother. by rewrite Hroot.
    + by rewrite (Hopp f s).
Qed.

(** C8: [n.root] is the node without father at the end of the father chain
    of [n], and the only such node; the loop needs one turn per level.
    [n.root.isRoot()] holds, and [n.root] is [n] exactly when [n] has no
    father. *)
Theorem root_walks_father_chain h n fuel :
  reachable h → level h n < fuel →
  ∃ r, root fuel h n = Some r ∧
       rtc (father_of h) n r ∧ isRoot h r = true ∧
       (∀ r', rtc (father_of h) n r' → father h r' = None → r' = r) ∧
       (r = n ↔ father h n = None).
Proof.
  intros Hwf%reachable_wf Hfuel.
  destruct (root_loop_spec h fuel n Hwf Hfuel) as (r & Hr & Hrtc & Hroot).
  exists r. split_and!; [done|done| | |].
  - unfold isRoot. by rewrite bool_decide_eq_true.
  - intros r' Hrtc' Hroot'. by eapply rtc_father_of_root_unique.
  - split; [by intros <-|]. intros Hn.
    destruct Hrtc as [|n f r Hf _]; [done|]. unfold father_of in Hf. congruence.
Qed.

(** C9: [n.ancestor(tree)] is true exactly when [tree] is a node met on the
    father chain that starts at [n.father]; the loop needs one turn per
    level.  A node is no ancestor of itself, and a root has no ancestor. *)
Theorem ancestor_walks_father_chain h n tree fuel :
  reachable h → level h n < fuel →
  (∃ b, ancestor fuel h n tree = Some b ∧
        (b = true ↔ ∃ c, tree = Some c ∧ tc (father_of h) n c)) ∧
  ancestor fuel h n (Some n) = Some false ∧
  (isRoot h n = true → ancestor fuel h n tree = Some false).
Proof.
  intros Hwf%reachable_wf Hfuel.
  assert (∀ tree, ∃ b, ancestor fuel h n tree = Some b ∧
            (b = true ↔ ∃ c, tree = Some c ∧ tc (father_of h) n c)) as Hspec.
  { clear tree. intros tree.
    destruct (ancestor_loop_spec h fuel tree (father h n) Hwf) as (b & Hb & Hiff).
    { destruct (father h n) as [f|] eqn:Hf; cbn; [|lia].
      pose proof (father_of_level h n f Hwf Hf). lia. }
    exists b. split; [done|]. rewrite Hiff. split.
    - intros (f & c & Hf & -> & Hrtc). exists c. split; [done|].
      eapply tc_rtc_r; [|done]. by apply tc_once.
    - intros (c & -> & Htc). destruct Htc as [n c Hf|n f c Hf Htc].
      + by exists c, c.
      + exists f, c. split_and!; [done..|]. by apply tc_rtc. }
  split_and!; [done| |].
  - destruct (Hspec (Some n)) as ([] & Hb & Hiff); [|done].
    destruct Hiff as [(c & [= <-] & Htc) _]; [done|].
    apply (tc_father_of_level h _ _ Hwf) in Htc. lia.
  - unfold isRoot. rewrite bool_decide_eq_true. intros Hroot.
    unfold ancestor. rewrite Hroot. destruct fuel; [lia|done].
Qed.
End upwards.

Lemma brother_is_opposite_slot_witness :
  (∀ f s, BinaryTreeNode.father sample 4 = Some f →
          slot_get sample s f = Some 4%positive →
          BinaryTreeNode.brother sample 4 = slot_get sample (opposite s) f) ∧
  (BinaryTreeNode.brother sample 4 = None ↔
   BinaryTreeNode.isRoot sample 4 = true ∨
   ∃ f s, BinaryTreeNode.father sample 4 = Some f ∧
          slot_get sample s f = Some 4%positive ∧
          slot_get sample (opposite s) f = None).
Proof.
  apply (brother_is_opposite_slot sample 4). exists sample_ops. reflexivity.
Defined.

Lemma root_walks_father_chain_witness :
  ∃ r, BinaryTreeNode.root 3 sample 4 = Some r ∧
       rtc (father_of sample) 4%positive r ∧
       BinaryTreeNode.isRoot sample r = true ∧
       (∀ r', rtc (father_of sample) 4%positive r' →
              BinaryTreeNode.father sample r' = None → r' = r) ∧
       (r = 4%positive ↔ BinaryTreeNode.father sample 4 = None).
Proof.
  apply (root_walks_father_chain sample 4 3).
  - exists sample_ops. reflexivity.
  - vm_compute. lia.
Defined.

Lemma ancestor_walks_father_chain_witness :
  (∃ b, BinaryTreeNode.ancestor 3 sample 4 (Some 1%positive) = Some b ∧
        (b = true ↔ ∃ c, Some 1%positive = Some c ∧
                         tc (father_of sample) 4%positive c)) ∧
  BinaryTreeNode.ancestor 3 sample 4 (Some 4%positive) = Some false ∧
  (BinaryTreeNode.isRoot sample 4 = true →
   BinaryTreeNode.ancestor 3 sample 4 (Some 1%positive) = Some false).
Proof.
  apply (ancestor_walks_father_chain sample 4 (Some 1%positive) 3).
  - exists sample_ops. reflexivity.
  - vm_compute. lia.
Defined.

(** ** Descendants *)

Section downwards.
Context {T : Type}.
Implicit Types (h : heap T) (this c f n x : loc) (tree node : BTNode).
Import BinaryTreeNode.

(** C3, as amended: for a node [c], [n.descendant(c)] returns (within one
    turn of the loop per node of the store and three more), and returns
    true exactly when [c] is reached from [n] by one or more steps to a
    left or right son, so that [n] itself does not count.  The loop is
    entered on the stack that holds [n.left] and [n.right] as they are,
    [null] when the slot is empty; a turn of the loop pushes on the stack
    only sons of the popped node that are nodes. *)
Theorem descendant_iff_reachable_by_sons h n c fuel :
  reachable h → size h + 3 ≤ fuel →
  (∃ b, descendant fuel h n (Some c) = Some b ∧
        (b = true ↔ tc (son_of h) n c)) ∧
  ¬ tc (son_of h) n n ∧
  (∀ tree, descendant fuel h n tree
           = descendant_loop fuel h tree (descendant_seeds h n)) ∧
  descendant_seeds h n = [right h n; left h n] ∧
  (Forall is_Some (descendant_seeds h n) ↔
   is_Some (left h n) ∧ is_Some (right h n)) ∧
  (∀ node visited, ∃ pushed,
     descendant_body h node visited = pushed ++ visited ∧
     Forall (λ v, ∃ m k, node = Some m ∧ v = Some k ∧ son_of h m k) pushed).
Proof.
  intros Hwf%reachable_wf Hfuel. split_and!.
  - by apply (descendant_spec h n (Some c)).
  - intros Htc. apply tc_father_of_son_of in Htc; [|done].
    apply (tc_father_of_level h _ _ Hwf) in Htc. lia.
  - done.
  - done.
  - unfold descendant_seeds, Stack.push, Stack.new.
    rewrite !Forall_cons. pose proof (Forall_nil_2 (@is_Some loc)). tauto.
  - intros node visited.
    destruct (descendant_body_spec h node visited) as (pushed & Hb & ->).
    eexists. split; [exact Hb|]. unfold son_of. destruct node as [m|]; cbn.
    + destruct (right h m) eqn:?, (left h m) eqn:?; cbn;
        repeat constructor; eauto 10.
    + constructor.
Qed.

(** C10: [n.descendant(null)] returns, and returns true exactly when the
    left or the right slot of [n] is empty: the two slots are pushed as
    they are and compared with the candidate.  So it is true on a leaf
    and false on a node with two sons. *)
Theorem descendant_null_iff_empty_slot h n fuel :
  reachable h → size h + 3 ≤ fuel →
  ∃ b, descendant fuel h n None = Some b ∧
       (b = true ↔ left h n = None ∨ right h n = None) ∧
       (isLeaf h n = true → b = true) ∧
       (is_Some (left h n) → is_Some (right h n) → b = false).
Proof.
  intros Hwf%reachable_wf Hfuel.
  destruct (descendant_spec h n None fuel Hwf Hfuel) as (b & Hb & Hiff).
  exists b. split_and!; [done|done| |].
  - unfold isLeaf. rewrite andb_true_iff, !bool_decide_eq_true.
    intros [Hl _]. apply Hiff. by left.
  - intros [l Hl] [r Hr]. destruct b; [|done].
    destruct Hiff as [[?|?] _]; congruence.
Qed.

(** C2: for two nodes [a] and [b], [a.ancestor(b)] and [b.descendant(a)]
    both return, and return the same truth value. *)
Theorem ancestor_eq_descendant h (a b : loc) fuel :
  reachable h → size h + 3 ≤ fuel →
  ∃ r, ancestor fuel h a (Some b) = Some r ∧
       descendant fuel h b (Some a) = Some r.
Proof.
  intros Hwf%reachable_wf Hfuel.
  destruct (descendant_spec h b (Some a) fuel Hwf Hfuel) as (r & Hr & Hiff).
  destruct (ancestor_loop_spec h fuel (Some b) (father h a) Hwf)
    as (r' & Hr' & Hiff').
  { pose proof (level_le_size h a Hwf).
    destruct (father h a) as [f|] eqn:Hf; cbn; [|lia].
    pose proof (father_of_level h a f Hwf Hf). lia. }
  exists r. split; [|done]. unfold ancestor. rewrite Hr'. f_equal.
  apply eq_true_iff_eq. rewrite Hiff, Hiff', <-tc_father_of_son_of by done.
  split.
  - intros (f & c & Hf & [= <-] & Hrtc). eapply tc_rtc_r; [|done]. by apply tc_once.
  - intros Htc. destruct Htc as [a b Hf|a f b Hf Htc].
    + by exists b, b.
    + exists f, b. split_and!; [done..|]. by apply tc_rtc.
Qed.
End downwards.

(** ** Traversal modes and orders *)

Lemma sample_shape_repr : repr sample (Some 1%positive) sample_shape.
Proof.
  unfold sample_shape.
  repeat (constructor;
          repeat match goal with
                 | |- repr _ ?o _ =>
                     let o' := eval vm_compute in o in
                     progress change o with o'
                 end).
Qed.



(** ** The properties on [sample] *)

(** C3, as stated, fails on the leaf 3 of [sample]: the stack on which the
    search is entered holds [null] twice, pushed without a test, and this
    is why the search finds [null] below the leaf. *)
Lemma descendant_seeds_of_leaf_are_null :
  BinaryTreeNode.descendant_seeds sample 3 = [None; None] ∧
  ¬ Forall is_Some (BinaryTreeNode.descendant_seeds sample 3) ∧
  BinaryTreeNode.descendant 8 sample 3 None = Some true.
Proof.
  split_and!; [reflexivity| |reflexivity].
  intros Hall. apply Forall_cons in Hall as [[? Hsome] _]. discriminate Hsome.
Qed.

Lemma descendant_iff_reachable_by_sons_witness :
  (∃ b, BinaryTreeNode.descendant 8 sample 1 (Some 5%positive) = Some b ∧
        (b = true ↔ tc (son_of sample) 1%positive 5%positive)) ∧
  ¬ tc (son_of sample) 1%positive 1%positive ∧
  (∀ tree, BinaryTreeNode.descendant 8 sample 1 tree
           = BinaryTreeNode.descendant_loop 8 sample tree
               (BinaryTreeNode.descendant_seeds sample 1)) ∧
  BinaryTreeNode.descendant_seeds sample 1
    = [BinaryTreeNode.right sample 1; BinaryTreeNode.left sample 1] ∧
  (Forall is_Some (BinaryTreeNode.descendant_seeds sample 1) ↔
   is_Some (BinaryTreeNode.left sample 1) ∧
   is_Some (BinaryTreeNode.right sample 1)) ∧
  (∀ node visited, ∃ pushed,
     BinaryTreeNode.descendant_body sample node visited = pushed ++ visited ∧
     Forall (λ v, ∃ m k, node = Some m ∧ v = Some k ∧ son_of sample m k)
       pushed).
Proof.
  apply (descendant_iff_reachable_by_sons sample 1 5 8).
  - exists sample_ops. reflexivity.
  - vm_compute. lia.
Defined.

Lemma descendant_null_iff_empty_slot_witness :
  ∃ b, BinaryTreeNode.descendant 8 sample 3 None = Some b ∧
       (b = true ↔ BinaryTreeNode.left sample 3 = None ∨
                   BinaryTreeNode.right sample 3 = None) ∧
       (BinaryTreeNode.isLeaf sample 3 = true → b = true) ∧
       (is_Some (BinaryTreeNode.left sample 3) →
        is_Some (BinaryTreeNode.right sample 3) → b = false).
Proof.
  apply (descendant_null_iff_empty_slot sample 3 8).
  - exists sample_ops. reflexivity.
  - vm_compute. lia.
Defined.

Lemma ancestor_eq_descendant_witness :
  ∃ r, BinaryTreeNode.ancestor 8 sample 5 (Some 1%positive) = Some r ∧
       BinaryTreeNode.descendant 8 sample 1 (Some 5%positive) = Some r.
Proof.
  apply (ancestor_eq_descendant sample 5 1 8).
  - exists sample_ops. reflexivity.
  - vm_compute. lia.
Defined.

(** The methods, run on [sample]. *)
Example sample_runs :
  BinaryTreeNode.descendant 6 sample 1 (Some 5%positive) = Some true ∧
  BinaryTreeNode.descendant 6 sample 2 (Some 3%positive) = Some false ∧
  BinaryTreeNode.descendant 6 sample 1 None = Some false ∧
  BinaryTreeNode.descendant 6 sample 2 None = Some false ∧
  BinaryTreeNode.descendant 6 sample 3 None = Some true ∧
  BinaryTreeNode.ancestor 3 sample 5 (Some 1%positive) = Some true ∧
  BinaryTreeNode.ancestor 3 sample 5 (Some 3%positive) = Some false ∧
  BinaryTreeNode.ancestor 3 sample 5 None = Some false ∧
  BinaryTreeNode.root 3 sample 5 = Some 1%positive ∧
  BinaryTreeNode.brother sample 4 = Some 5%positive ∧
  BinaryTreeNode.brother sample 1 = None ∧
  (BinaryTreeNode.insertLeft 1 7 sample).1 = Thrown InvalidInsertion.
Proof. repeat split; reflexivity. Qed.

(** ** What an operation leaves alone *)

Section frames.
Context {T : Type}.
Implicit Types (h : heap T) (this c f n x : loc) (tree node : BTNode) (d : T).
Import BinaryTreeNode.

(** A node of the store keeps its payload, father and level through every
    operation, and a slot that holds a node keeps it. *)
Lemma step_keeps h o n :
  n ∈ dom h →
  n ∈ dom (step h o) ∧ data (step h o) n = data h n ∧
  father (step h o) n = father h n ∧ level (step h o) n = level h n ∧
  (∀ c, left h n = Some c → left (step h o) n = Some c) ∧
  (∀ c, right h n = Some c → right (step h o) n = Some c).
Proof.
  intros Hn. pose proof (fresh_not_live h) as Hc.
  assert (n ≠ fresh (dom h)) as Hne.
  { intros ->. apply elem_of_dom in Hn as [? Hn]. congruence. }
  destruct o as [d|this d|this d]; unfold step; cbn [receiver exec].
  - destruct (new_spec d h) as (Hf & Hl & Hr & Hv & Hdom).
    rewrite Hf, Hv, Hdom. split_and!; [set_solver| |done|done| |].
    + unfold data. cbn. by rewrite lookup_insert_ne.
    + intros c. by rewrite Hl.
    + intros c. by rewrite Hr.
  - case_decide as Hin; [|done]. apply elem_of_dom in Hin as [nd Hnd].
    destruct (p_left nd) as [c|] eqn:Hl.
    { erewrite insertLeft_throws; [done|]. unfold left. by rewrite Hnd. }
    erewrite insertLeft_normal by done. cbn.
    destruct (grow_left_spec h this _ d nd Hnd Hc) as (Hf' & Hl' & Hr' & Hv').
    rewrite Hf', Hv', !decide_False by done.
    split_and!; [rewrite !dom_insert_L; set_solver| |done|done| |].
    + unfold data. destruct (decide (n = this)) as [->|].
      * by rewrite lookup_insert_eq, Hnd.
      * by rewrite !lookup_insert_ne.
    + intros c. rewrite Hl'. case_decide as Heq; [|done]. subst n.
      unfold left. rewrite Hnd. cbn. congruence.
    + intros c. by rewrite Hr'.
  - case_decide as Hin; [|done]. apply elem_of_dom in Hin as [nd Hnd].
    destruct (p_right nd) as [c|] eqn:Hl.
    { erewrite insertRight_throws; [done|]. unfold right. by rewrite Hnd. }
    erewrite insertRight_normal by done. cbn.
    destruct (grow_right_spec h this _ d nd Hnd Hc) as (Hf' & Hl' & Hr' & Hv').
    rewrite Hf', Hv', !decide_False by done.
    split_and!; [rewrite !dom_insert_L; set_solver| |done|done| |].
    + unfold data. destruct (decide (n = this)) as [->|].
      * by rewrite lookup_insert_eq, Hnd.
      * by rewrite !lookup_insert_ne.
    + intros c. by rewrite Hl'.
    + intros c. rewrite Hr'. case_decide as Heq; [|done]. subst n.
      unfold right. rewrite Hnd. cbn. congruence.
Qed.

Lemma run_keeps h (ops : list (op T)) n :
  n ∈ dom h →
  n ∈ dom (run ops h) ∧ data (run ops h) n = data h n ∧
  father (run ops h) n = father h n ∧ level (run ops h) n = level h n ∧
  (∀ c, left h n = Some c → left (run ops h) n = Some c) ∧
  (∀ c, right h n = Some c → right (run ops h) n = Some c).
Proof.
  revert h. induction ops as [|o ops IH]; intros h Hn; [done|].
  change (run (o :: ops) h) with (run ops (step h o)).
  destruct (step_keeps h o n Hn) as (Hn' & Hd & Hf & Hv & Hl & Hr).
  destruct (IH _ Hn') as (Hn'' & Hd' & Hf' & Hv' & Hl' & Hr').
  rewrite Hd', Hf', Hv'. split_and!; auto.
Qed.

(** X3: the topology only grows.  Whatever a program does to a store, a
    node that exists stays, with the payload, the father and the level it
    has, and a slot that holds a node goes on holding that node. *)
Theorem topology_append_only h (ops : list (op T)) n :
  n ∈ dom h →
  n ∈ dom (run ops h) ∧ data (run ops h) n = data h n ∧
  father (run ops h) n = father h n ∧ level (run ops h) n = level h n ∧
  (∀ c, left h n = Some c → left (run ops h) n = Some c) ∧
  (∀ c, right h n = Some c → right (run ops h) n = Some c).
Proof. apply run_keeps. Qed.

(** X4: a slot is written once.  After [insertLeft] has filled the left
    slot of [n], every later [insertLeft] on [n] throws and leaves the
    store as it is, whatever the program has done in between; the same
    holds of [insertRight]. *)
Theorem slot_written_once h n d nd :
  h !! n = Some nd →
  (p_left nd = None →
   ∀ (ops : list (op T)) d',
     let h' := run ops (insertLeft n d h).2 in
     insertLeft n d' h' = (Thrown InvalidInsertion, h')) ∧
  (p_right nd = None →
   ∀ (ops : list (op T)) d',
     let h' := run ops (insertRight n d h).2 in
     insertRight n d' h' = (Thrown InvalidInsertion, h')).
Proof.
  intros Hn. pose proof (fresh_not_live h) as Hc.
  assert (n ≠ fresh (dom h)) as Hne by congruence.
  split; intros Hslot ops d' h'.
  - apply (insertLeft_throws _ _ _ (fresh (dom h))).
    apply run_keeps; erewrite insertLeft_normal by done; cbn.
    + rewrite !dom_insert_L. apply elem_of_dom_2 in Hn. set_solver.
    + destruct (grow_left_spec h n _ d nd Hn Hc) as (_ & -> & _).
      by rewrite decide_True.
  - apply (insertRight_throws _ _ _ (fresh (dom h))).
    apply run_keeps; erewrite insertRight_normal by done; cbn.
    + rewrite !dom_insert_L. apply elem_of_dom_2 in Hn. set_solver.
    + destruct (grow_right_spec h n _ d nd Hn Hc) as (_ & _ & -> & _).
      by rewrite decide_True.
Qed.
End frames.

(** ** Positions in a tree *)

Section positions.
Context {T : Type}.
Implicit Types (h : heap T) (this c f n x : loc) (tree node : BTNode).
Import BinaryTreeNode.

(** X1: a node without father is neither a left nor a right son, and a
    node with a father is exactly one of the two: [isLeft()] and
    [isRight()] never agree on it. *)
Theorem isLeft_isRight_exclusive h n :
  reachable h →
  (isRoot h n = true → isLeft h n = false ∧ isRight h n = false) ∧
  (isRoot h n = false → isLeft h n = negb (isRight h n)).
Proof.
  intros Hwf%reachable_wf. unfold isRoot, isLeft, isRight.
  destruct (father h n) as [f|] eqn:Hf.
  - rewrite bool_decide_eq_false_2 by done. split; [done|intros _].
    destruct (wf_father h Hwf _ _ Hf) as [Hl|Hr].
    + rewrite (bool_decide_eq_true_2 _ Hl), bool_decide_eq_false_2; [done|].
      by apply (wf_sons h Hwf).
    + rewrite (bool_decide_eq_true_2 _ Hr), bool_decide_eq_false_2; [done|].
      intros Hl. by apply (wf_sons h Hwf) in Hl.
  - by rewrite bool_decide_eq_true_2.
Qed.

(** X11: [isRoot()] and [level() == 0] say the same. *)
Theorem isRoot_iff_level_zero h n :
  reachable h → isRoot h n = true ↔ level h n = 0.
Proof.
  intros Hwf%reachable_wf. unfold isRoot. rewrite bool_decide_eq_true.
  split; [apply (wf_root h Hwf)|]. intros Hv.
  destruct (father h n) as [f|] eqn:Hf; [|done].
  apply (father_of_level h _ _ Hwf) in Hf. lia.
Qed.

(** X13: no node is shared.  A node sits in at most one slot of at most
    one father. *)
Theorem node_in_one_slot h n n' s s' c :
  reachable h →
  slot_get h s n = Some c → slot_get h s' n' = Some c → n = n' ∧ s = s'.
Proof.
  intros Hwf%reachable_wf Hs Hs'.
  assert (∀ s n, slot_get h s n = Some c → father h c = Some n) as Hfather.
  { intros [] m Hm; [by apply (wf_left h Hwf)|by apply (wf_right h Hwf)]. }
  assert (n = n') as <-.
  { apply Hfather in Hs, Hs'. congruence. }
  split; [done|]. destruct s, s'; cbn in *; try done.
  - by apply (wf_sons h Hwf) in Hs.
  - by apply (wf_sons h Hwf) in Hs'.
Qed.

(** X10: brothers come in pairs.  When [n.brother] is a node [b], then
    [b.brother] is [n]; the two are different nodes with the same father
    and the same level. *)
Theorem brother_symmetric h n b :
  reachable h → brother h n = Some b →
  brother h b = Some n ∧ b ≠ n ∧ father h b = father h n ∧
  level h b = level h n.
Proof.
  intros Hwf%reachable_wf. unfold brother at 1, isLeft.
  destruct (father h n) as [f|] eqn:Hf; [|done].
  case_bool_decide as Hl; intros Hb.
  - destruct (wf_right h Hwf _ _ Hb) as [Hfb Hvb].
    destruct (wf_left h Hwf _ _ Hl) as [_ Hvn].
    assert (b ≠ n) as Hne.
    { intros ->. by apply (wf_sons h Hwf) in Hl. }
    split_and!; [|done|done|lia].
    unfold brother, isLeft. rewrite Hfb, bool_decide_eq_false_2; [done|].
    congruence.
  - destruct (wf_left h Hwf _ _ Hb) as [Hfb Hvb].
    destruct (wf_father h Hwf _ _ Hf) as [?|Hr]; [done|].
    destruct (wf_right h Hwf _ _ Hr) as [_ Hvn].
    assert (b ≠ n) as Hne by congruence.
    split_and!; [|done|done|lia].
    unfold brother, isLeft. by rewrite Hfb, bool_decide_eq_true_2.
Qed.

(** X12: the level is the number of father links up to the root.  The
    loop of [root] is still running after [level()] turns, and returns in
    the next one, at the node that many father links above; on a node of
    the store the level is below the number of nodes. *)
Theorem level_counts_root_turns h n :
  reachable h →
  root (level h n) h n = None ∧
  (∃ r, root (S (level h n)) h n = Some r ∧
        nsteps (father_of h) (level h n) n r) ∧
  (n ∈ dom h → level h n < size h).
Proof.
  intros Hwf%reachable_wf.
  assert (∀ k n, level h n = k →
            root_loop k h n = None ∧
            ∃ r, root_loop (S k) h n = Some r ∧ nsteps (father_of h) k n r)
    as Hturns.
  { clear n. induction k as [|k IH]; intros n Hk.
    - split; [done|]. exists n. cbn. split; [|constructor].
      destruct (father h n) as [f|] eqn:Hf; [|done].
      apply (father_of_level h _ _ Hwf) in Hf. lia.
    - destruct (father h n) as [f|] eqn:Hf.
      2:{ apply (wf_root h Hwf) in Hf. lia. }
      pose proof (father_of_level h n f Hwf Hf) as Hv.
      destruct (IH f) as (Hnone & r & Hr & Hsteps); [lia|].
      split; [cbn; by rewrite Hf|]. exists r. split.
      + cbn [root_loop]. by rewrite Hf.
      + by eapply nsteps_l. }
  destruct (Hturns _ n eq_refl) as [Hnone Hsome].
  split_and!; [done|done|]. by apply level_lt_size.
Qed.
End positions.

(** ** Roots, ancestors and leaves *)

Section relatives.
Context {T : Type}.
Implicit Types (h : heap T) (this c f n x : loc) (tree node : BTNode).
Import BinaryTreeNode.

(** The method [ancestor], in a well-formed store. *)
Lemma ancestor_spec h fuel n tree :
  wf h → level h n < fuel →
  ∃ r, ancestor fuel h n tree = Some r ∧
       (r = true ↔ ∃ c, tree = Some c ∧ tc (father_of h) n c).
Proof.
  intros Hwf Hfuel.
  destruct (ancestor_loop_spec h fuel tree (father h n) Hwf) as (r & Hr & Hiff).
  { destruct (father h n) as [f|] eqn:Hf; cbn; [|lia].
    pose proof (father_of_level h n f Hwf Hf). lia. }
  exists r. split; [done|]. rewrite Hiff. split.
  - intros (f & c & Hf & -> & Hrtc). exists c. split; [done|].
    eapply tc_rtc_r; [|done]. by apply tc_once.
  - intros (c & -> & Htc). destruct Htc as [n c Hf|n f c Hf Htc].
    + by exists c, c.
    + exists f, c. split_and!; [done..|]. by apply tc_rtc.
Qed.

Lemma ancestor_true h fuel n c :
  wf h → level h n < fuel →
  ancestor fuel h n (Some c) = Some true ↔ tc (father_of h) n c.
Proof.
  intros Hwf Hfuel.
  destruct (ancestor_spec h fuel n (Some c) Hwf Hfuel) as (r & -> & Hiff).
  split.
  - intros [= ->]. destruct Hiff as [(? & [= <-] & ?) _]; done.
  - intros Htc. f_equal. apply Hiff. by exists c.
Qed.

(** The nodes of a father chain have one root. *)
Lemma root_of_chain h fuel n m r :
  wf h → level h n < fuel → rtc (father_of h) n m →
  root fuel h n = Some r → root fuel h m = Some r.
Proof.
  intros Hwf Hfuel Hrtc Hr.
  destruct (root_loop_spec h fuel n Hwf Hfuel) as (r1 & Hr1 & Hrtc1 & Hroot1).
  pose proof (rtc_father_of_level h _ _ Hwf Hrtc) as Hlevel.
  destruct (root_loop_spec h fuel m Hwf) as (r2 & Hr2 & Hrtc2 & Hroot2); [lia|].
  unfold root in *. rewrite Hr2. f_equal.
  assert (r = r1) as -> by congruence.
  apply (rtc_father_of_root_unique h n); [|done..].
  eapply rtc_trans; [exact Hrtc|exact Hrtc2].
Qed.

(** X6: a tree has one root.  [n.root] has level 0 and is its own root,
    and every node on the father chain of [n] has the same root. *)
Theorem root_shared_along_chain h n fuel :
  reachable h → level h n < fuel →
  ∃ r, root fuel h n = Some r ∧ level h r = 0 ∧ root fuel h r = Some r ∧
       ∀ m, rtc (father_of h) n m → root fuel h m = Some r.
Proof.
  intros Hwf%reachable_wf Hfuel.
  destruct (root_loop_spec h fuel n Hwf Hfuel) as (r & Hr & Hrtc & Hroot).
  exists r. split_and!; [done|by apply (wf_root h Hwf)| |].
  - by apply (root_of_chain h fuel n r r).
  - intros m Hm. by apply (root_of_chain h fuel n m r).
Qed.

(** X7: the root is above every other node of its tree.  For a node [n]
    that is not a root, [n.ancestor(n.root)] and [n.root.descendant(n)]
    are true. *)
Theorem root_is_ancestor h n fuel :
  reachable h → size h + 3 ≤ fuel → isRoot h n = false →
  ∃ r, root fuel h n = Some r ∧ ancestor fuel h n (Some r) = Some true ∧
       descendant fuel h r (Some n) = Some true.
Proof.
  intros Hwf%reachable_wf Hfuel Hn.
  pose proof (level_le_size h n Hwf) as Hlevel.
  destruct (root_loop_spec h fuel n Hwf) as (r & Hr & Hrtc & Hroot); [lia|].
  assert (tc (father_of h) n r) as Htc.
  { apply rtc_tc in Hrtc as [<-|?]; [|done]. unfold isRoot in Hn.
    by apply bool_decide_eq_false in Hn. }
  exists r. split_and!; [done| |].
  - apply ancestor_true; [done|lia|done].
  - destruct (descendant_spec h r (Some n) fuel Hwf Hfuel) as (b & -> & Hiff).
    f_equal. apply Hiff. by apply tc_father_of_son_of.
Qed.

(** X8: [ancestor] is a strict order.  An ancestor lies on a lower level
    and has not the node as its own ancestor, and an ancestor of an
    ancestor is an ancestor. *)
Theorem ancestor_strict_order h (a b c : loc) fuel :
  reachable h → level h a < fuel →
  ancestor fuel h a (Some b) = Some true →
  level h b < level h a ∧ ancestor fuel h b (Some a) = Some false ∧
  (ancestor fuel h b (Some c) = Some true →
   ancestor fuel h a (Some c) = Some true).
Proof.
  intros Hwf%reachable_wf Hfuel Hab.
  apply ancestor_true in Hab; [|done..].
  pose proof (tc_father_of_level h _ _ Hwf Hab) as Hlevel.
  split_and!; [done| |].
  - destruct (ancestor_spec h fuel b (Some a) Hwf) as ([] & Hr & Hiff);
      [lia| |done].
    destruct Hiff as [(? & [= <-] & Hba) _]; [done|].
    apply (tc_father_of_level h _ _ Hwf) in Hba. lia.
  - intros Hbc. apply ancestor_true in Hbc; [|done|lia].
    apply ancestor_true; [done..|]. by eapply tc_trans.
Qed.

(** X9: [ancestor] stays inside a tree: a node and its ancestor have the
    same root. *)
Theorem ancestor_same_root h (a b : loc) fuel :
  reachable h → level h a < fuel →
  ancestor fuel h a (Some b) = Some true →
  ∃ r, root fuel h a = Some r ∧ root fuel h b = Some r.
Proof.
  intros Hwf%reachable_wf Hfuel Hab.
  apply ancestor_true in Hab; [|done..].
  destruct (root_loop_spec h fuel a Hwf Hfuel) as (r & Hr & _).
  exists r. split; [done|].
  apply (root_of_chain h fuel a b r); [done..|by apply tc_rtc|done].
Qed.

(** X2: [isLeaf()] is true exactly on the nodes that are nobody's father,
    and exactly on the nodes of which [descendant] finds no node. *)
Theorem isLeaf_iff_no_son h n fuel :
  reachable h → size h + 3 ≤ fuel →
  (isLeaf h n = true ↔ ∀ c, father h c ≠ Some n) ∧
  (isLeaf h n = true ↔ ∀ c, descendant fuel h n (Some c) = Some false).
Proof.
  intros Hwf%reachable_wf Hfuel.
  assert (isLeaf h n = true ↔ ∀ c, ¬ son_of h n c) as Hleaf.
  { unfold isLeaf, son_of. rewrite andb_true_iff, !bool_decide_eq_true. split.
    - intros [Hl Hr] c [?|?]; congruence.
    - intros Hnone. split.
      + destruct (left h n) as [c|] eqn:Hl; [|done]. destruct (Hnone c). by left.
      + destruct (right h n) as [c|] eqn:Hr; [|done]. destruct (Hnone c). by right. }
  rewrite Hleaf. split.
  - split; intros Hnone c Hc; apply (Hnone c); by apply son_of_father_of.
  - split.
    + intros Hnone c.
      destruct (descendant_spec h n (Some c) fuel Hwf Hfuel) as (b & -> & Hiff).
      destruct b; [|done]. destruct Hiff as [Htc _]. specialize (Htc eq_refl).
      apply tc_son_of_split in Htc as (m & Hm & _). by destruct (Hnone m).
    + intros Hnone c Hc.
      destruct (descendant_spec h n (Some c) fuel Hwf Hfuel) as (b & Hb & Hiff).
      rewrite Hnone in Hb. injection Hb as <-.
      destruct Hiff as [_ Hiff]. by specialize (Hiff (tc_once _ _ _ Hc)).
Qed.
(** X16: nodes on one level are unrelated.  Neither [ancestor] nor
    [descendant] holds between two nodes of the same level, and so not
    between a node and its brother. *)
Theorem same_level_unrelated h (a b : loc) fuel :
  reachable h → size h + 3 ≤ fuel →
  (level h a = level h b →
   ancestor fuel h a (Some b) = Some false ∧
   descendant fuel h a (Some b) = Some false) ∧
  (brother h a = Some b →
   ancestor fuel h a (Some b) = Some false ∧
   descendant fuel h a (Some b) = Some false).
Proof.
  intros Hwf%reachable_wf Hfuel.
  assert (level h a = level h b →
          ancestor fuel h a (Some b) = Some false ∧
          descendant fuel h a (Some b) = Some false) as Hlevel.
  { intros Hv. pose proof (level_le_size h a Hwf). split.
    - destruct (ancestor_spec h fuel a (Some b) Hwf) as ([] & Hr & Hiff);
        [lia| |done].
      destruct Hiff as [(? & [= <-] & Htc) _]; [done|].
      apply (tc_father_of_level h _ _ Hwf) in Htc. lia.
    - destruct (descendant_spec h a (Some b) fuel Hwf Hfuel) as (r & -> & Hiff).
      destruct r; [|done]. destruct Hiff as [Htc _]. specialize (Htc eq_refl).
      apply tc_father_of_son_of in Htc; [|done].
      apply (tc_father_of_level h _ _ Hwf) in Htc. lia. }
  split; [done|]. intros Hb. apply Hlevel.
  revert Hb. unfold brother, isLeft.
  destruct (father h a) as [f|] eqn:Hf; [|done].
  pose proof (father_of_level h a f Hwf Hf).
  case_bool_decide; intros Hb.
  - apply (wf_right h Hwf) in Hb as [_ ?]. lia.
  - apply (wf_left h Hwf) in Hb as [_ ?]. lia.
Qed.
End relatives.

(** ** New nodes *)

Section fresh_nodes.
Context {T : Type}.
Implicit Types (h : heap T) (this c f n x : loc) (tree node : BTNode) (d : T).
Import BinaryTreeNode.

(** The loops read a store through [father], [left] and [right] only. *)
Lemma root_loop_ext h h' fuel n :
  (∀ x, father h' x = father h x) → root_loop fuel h' n = root_loop fuel h n.
Proof.
  intros Hf. revert n. induction fuel as [|fuel IH]; intros n; [done|].
  cbn. rewrite Hf. destruct (father h n); [apply IH|done].
Qed.

Lemma ancestor_loop_ext h h' fuel tree node :
  (∀ x, father h' x = father h x) →
  ancestor_loop fuel h' tree node = ancestor_loop fuel h tree node.
Proof.
  intros Hf. revert node. induction fuel as [|fuel IH]; intros node; [done|].
  cbn. destruct node as [m|]; [|done]. case_decide; [done|].
  rewrite Hf. apply IH.
Qed.

Lemma descendant_loop_ext h h' fuel tree (visited : Stack.t BTNode) :
  (∀ x, left h' x = left h x) → (∀ x, right h' x = right h x) →
  descendant_loop fuel h' tree visited = descendant_loop fuel h tree visited.
Proof.
  intros Hl Hr. revert visited.
  induction fuel as [|fuel IH]; intros visited; [done|].
  cbn. destruct (Stack.empty visited); [done|].
  destruct (Stack.pop visited) as [node rest]. case_decide; [done|].
  rewrite IH. f_equal. unfold descendant_body.
  destruct node as [m|]; cbn; [|done]. by rewrite Hl, Hr.
Qed.

(** In a store grown by a node [c] that nothing pointed to, the father
    chain of another node is what it was. *)
Lemma root_loop_grow h h' c fuel n :
  (∀ x, x ≠ c → father h' x = father h x) → (∀ x, father h x ≠ Some c) →
  n ≠ c → root_loop fuel h' n = root_loop fuel h n.
Proof.
  intros Hf Hc. revert n. induction fuel as [|fuel IH]; intros n Hn; [done|].
  cbn. rewrite Hf by done. destruct (father h n) as [f|] eqn:Hfn; [|done].
  apply IH. intros ->. by apply Hc in Hfn.
Qed.

(** X14: the constructor disturbs nothing.  The node that [new
    BinaryTreeNode(d)] creates is a root and a leaf on level 0 that holds
    [d] and is its own root, and every query on every node answers in the
    new store what it answered before. *)
Theorem new_changes_no_query h d :
  let c := fresh (dom h) in
  let h' := (new d h).2 in
  (c ∉ dom h) ∧ data h' c = Some d ∧ isRoot h' c = true ∧
  isLeaf h' c = true ∧ level h' c = 0 ∧ brother h' c = None ∧
  (∀ fuel, root (S fuel) h' c = Some c) ∧
  ∀ x,
    isRoot h' x = isRoot h x ∧ isLeaf h' x = isLeaf h x ∧
    isLeft h' x = isLeft h x ∧ isRight h' x = isRight h x ∧
    level h' x = level h x ∧ brother h' x = brother h x ∧
    (∀ fuel, root fuel h' x = root fuel h x) ∧
    (∀ fuel tree, ancestor fuel h' x tree = ancestor fuel h x tree) ∧
    (∀ fuel tree, descendant fuel h' x tree = descendant fuel h x tree).
Proof.
  intros c h'. destruct (new_spec d h) as (Hf & Hl & Hr & Hv & _).
  fold h' in Hf, Hl, Hr, Hv. pose proof (fresh_not_live h) as Hc. fold c in Hc.
  assert (father h c = None ∧ left h c = None ∧ right h c = None ∧
          level h c = 0) as (Cf & Cl & Cr & Cv)
    by (unfold father, left, right, level; by rewrite Hc).
  split_and!.
  - by apply not_elem_of_dom.
  - unfold data, h'. cbn. by rewrite lookup_insert_eq.
  - unfold isRoot. by rewrite Hf, Cf.
  - unfold isLeaf. by rewrite Hl, Hr, Cl, Cr.
  - by rewrite Hv.
  - unfold brother. by rewrite Hf, Cf.
  - intros fuel. unfold root. cbn. by rewrite Hf, Cf.
  - intros x.
    assert (isLeft h' x = isLeft h x) as HisLeft.
    { unfold isLeft. rewrite Hf. destruct (father h x); [|done]. by rewrite Hl. }
    split_and!.
    + unfold isRoot. by rewrite Hf.
    + unfold isLeaf. by rewrite Hl, Hr.
    + done.
    + unfold isRight. rewrite Hf. destruct (father h x); [|done]. by rewrite Hr.
    + done.
    + unfold brother. rewrite Hf, HisLeft.
      destruct (father h x); [|done]. by rewrite Hl, Hr.
    + intros fuel. by apply root_loop_ext.
    + intros fuel tree. unfold ancestor. rewrite Hf. by apply ancestor_loop_ext.
    + intros fuel tree. unfold descendant. rewrite Hl, Hr.
      by apply descendant_loop_ext.
Qed.

(** X5: where an inserted node stands.  The node [c] that [insertLeft]
    attaches to [n] is a left son and no right son, a leaf and no root;
    [n] is no leaf any more; the brother of [c] is the right son that [n]
    had; the root of [c] is the root of [n], and the root of every node
    of the store is what it was.  The same holds of [insertRight], with
    left and right exchanged. *)
Theorem inserted_node_position h n d nd :
  reachable h → h !! n = Some nd →
  (p_left nd = None →
   let c := fresh (dom h) in
   let h' := (insertLeft n d h).2 in
   isLeft h' c = true ∧ isRight h' c = false ∧ isLeaf h' c = true ∧
   isRoot h' c = false ∧ isLeaf h' n = false ∧ brother h' c = right h n ∧
   (∀ fuel, root (S fuel) h' c = root fuel h n) ∧
   (∀ fuel x, x ∈ dom h → root fuel h' x = root fuel h x)) ∧
  (p_right nd = None →
   let c := fresh (dom h) in
   let h' := (insertRight n d h).2 in
   isRight h' c = true ∧ isLeft h' c = false ∧ isLeaf h' c = true ∧
   isRoot h' c = false ∧ isLeaf h' n = false ∧ brother h' c = left h n ∧
   (∀ fuel, root (S fuel) h' c = root fuel h n) ∧
   (∀ fuel x, x ∈ dom h → root fuel h' x = root fuel h x)).
Proof.
  intros Hwf%reachable_wf Hn. pose proof (fresh_not_live h) as Hc.
  destruct (wf_closed h _ Hwf Hc) as (Cf & Cl & Cr & Cv & Nf & Nl & Nr).
  assert (n ≠ fresh (dom h)) as Hne by congruence.
  assert (∀ x, x ∈ dom h → x ≠ fresh (dom h)) as Hlive.
  { intros x [? Hx]%elem_of_dom ->. congruence. }
  split; intros Hslot c h'; subst c h'.
  - erewrite insertLeft_normal by done. cbn [snd].
    destruct (grow_left_spec h n _ d nd Hn Hc) as (Hf & Hl & Hr & _).
    revert Hf Hl Hr.
    generalize (<[n:=with_left (Some (fresh (dom h))) nd]>
      (<[fresh (dom h):=Node d (Some n) None None (p_level nd + 1)]> h)).
    generalize dependent (fresh (dom h)). intros c Hc Cf Cl Cr Cv Nf Nl Nr Hne Hlive.
    intros h' Hf Hl Hr.
    assert (father h' c = Some n) as Ef by (by rewrite Hf, decide_True).
    assert (left h' n = Some c) as El by (by rewrite Hl, decide_True).
    assert (left h' c = None) as Ecl by (by rewrite Hl, decide_False).
    assert (right h' c = None) as Ecr by (by rewrite Hr).
    assert (∀ fuel x, x ≠ c → root_loop fuel h' x = root_loop fuel h x)
      as Hroot.
    { intros fuel x Hx. apply (root_loop_grow h _ c); [|done..].
      intros y Hy. by rewrite Hf, decide_False. }
    unfold isLeft, isRight, isLeaf, isRoot, brother, isLeft, root.
    rewrite Ef, El, Ecl, Ecr, !Hr. split_and!; try done.
    + by rewrite bool_decide_eq_true_2.
    + rewrite bool_decide_eq_false_2; [done|]. apply Nr.
    + by rewrite bool_decide_eq_true_2.
    + intros fuel. cbn. rewrite Ef. by apply Hroot.
    + intros fuel x Hx. by apply Hroot, Hlive.
  - erewrite insertRight_normal by done. cbn [snd].
    destruct (grow_right_spec h n _ d nd Hn Hc) as (Hf & Hl & Hr & _).
    revert Hf Hl Hr.
    generalize (<[n:=with_right (Some (fresh (dom h))) nd]>
      (<[fresh (dom h):=Node d (Some n) None None (p_level nd + 1)]> h)).
    generalize dependent (fresh (dom h)). intros c Hc Cf Cl Cr Cv Nf Nl Nr Hne Hlive.
    intros h' Hf Hl Hr.
    assert (father h' c = Some n) as Ef by (by rewrite Hf, decide_True).
    assert (right h' n = Some c) as Er by (by rewrite Hr, decide_True).
    assert (left h' c = None) as Ecl by (by rewrite Hl).
    assert (right h' c = None) as Ecr by (by rewrite Hr, decide_False).
    assert (∀ fuel x, x ≠ c → root_loop fuel h' x = root_loop fuel h x)
      as Hroot.
    { intros fuel x Hx. apply (root_loop_grow h _ c); [|done..].
      intros y Hy. by rewrite Hf, decide_False. }
    unfold isLeft, isRight, isLeaf, isRoot, brother, isLeft, root.
    rewrite Ef, Er, Ecl, Ecr, !Hl. split_and!; try done.
    + by rewrite bool_decide_eq_true_2.
    + rewrite bool_decide_eq_false_2; [done|]. apply Nl.
    + by rewrite andb_false_r.
    + rewrite bool_decide_eq_false_2; [done|]. apply Nl.
    + intros fuel. cbn. rewrite Ef. by apply Hroot.
    + intros fuel x Hx. by apply Hroot, Hlive.
Qed.
End fresh_nodes.

(** ** Chained insertions *)

Section chaining.
Context {T : Type}.
Implicit Types (h : heap T) (this c f n x : loc) (d : T).
Import BinaryTreeNode.

(** X15: [n.insertLeft(a).insertRight(b)] on a leaf [n].  The chain
    completes and returns [n]; it allocates two nodes, which hold [a] and
    [b], fill the left and the right slot of [n], lie one level below [n]
    and are each other's brother. *)
Theorem insert_chain_builds_brothers h n (a b : T) nd :
  h !! n = Some nd → p_left nd = None → p_right nd = None →
  ∃ cl cr h2,
    bind (insertLeft n a) (λ r, insertRight r b) h = (Normal n, h2) ∧
    cl ≠ cr ∧ (cl ∉ dom h) ∧ (cr ∉ dom h) ∧
    dom h2 = {[cl; cr]} ∪ dom h ∧
    left h2 n = Some cl ∧ right h2 n = Some cr ∧
    data h2 cl = Some a ∧ data h2 cr = Some b ∧
    level h2 cl = level h n + 1 ∧ level h2 cr = level h n + 1 ∧
    brother h2 cl = Some cr ∧ brother h2 cr = Some cl.
Proof.
  intros Hn Hl Hr.
  pose proof (fresh_not_live h) as Hcl. set (cl := fresh (dom h)) in *.
  assert (n ≠ cl) as Hncl by congruence.
  set (h1 := <[n:=with_left (Some cl) nd]>
               (<[cl:=Node a (Some n) None None (p_level nd + 1)]> h)).
  assert (insertLeft n a h = (Normal n, h1)) as E1
    by by apply insertLeft_normal.
  assert (h1 !! n = Some (with_left (Some cl) nd)) as Hn1
    by (unfold h1; by rewrite lookup_insert_eq).
  pose proof (fresh_not_live h1) as Hcr. set (cr := fresh (dom h1)) in *.
  assert (h1 !! cl = Some (Node a (Some n) None None (p_level nd + 1)))
    as Hcl1 by (unfold h1; by rewrite lookup_insert_ne, lookup_insert_eq).
  assert (cl ≠ cr) as Hne by congruence.
  assert (n ≠ cr) as Hncr by congruence.
  assert (h !! cr = None) as Hcr0.
  { revert Hcr. unfold h1. by rewrite !lookup_insert_ne. }
  set (h2 := <[n:=with_right (Some cr) (with_left (Some cl) nd)]>
               (<[cr:=Node b (Some n) None None (p_level nd + 1)]> h1)).
  assert (insertRight n b h1 = (Normal n, h2)) as E2
    by exact (insertRight_normal h1 n b (with_left (Some cl) nd) Hn1 Hr).
  destruct (grow_left_spec h n cl a nd Hn Hcl) as (Hf1 & Hl1 & Hr1 & Hv1).
  destruct (grow_right_spec h1 n cr b _ Hn1 Hcr) as (Hf2 & Hl2 & Hr2 & Hv2).
  fold h1 in Hf1, Hl1, Hr1, Hv1. cbn [with_left p_level] in Hf2, Hl2, Hr2, Hv2.
  fold h2 in Hf2, Hl2, Hr2, Hv2.
  assert (level h n = p_level nd) as Hlevel by (unfold level; by rewrite Hn).
  exists cl, cr, h2. split_and!.
  - unfold bind. by rewrite E1, E2.
  - done.
  - by apply not_elem_of_dom.
  - by apply not_elem_of_dom.
  - unfold h2, h1. rewrite !dom_insert_L. apply elem_of_dom_2 in Hn. set_solver.
  - by rewrite Hl2, Hl1, decide_True.
  - by rewrite Hr2, decide_True.
  - unfold data, h2. by rewrite !lookup_insert_ne, Hcl1.
  - unfold data, h2. by rewrite lookup_insert_ne, lookup_insert_eq.
  - rewrite Hv2, decide_False, Hv1, decide_True by done. done.
  - rewrite Hv2, decide_True, Hv1, decide_False by done. by rewrite Hlevel.
  - unfold brother, isLeft.
    rewrite Hf2, decide_False, Hf1, decide_True, Hl2, Hl1, decide_True by done.
    by rewrite bool_decide_eq_true_2, Hr2, decide_True.
  - unfold brother, isLeft.
    rewrite Hf2, decide_True, Hl2, Hl1, decide_True by done.
    rewrite bool_decide_eq_false_2 by congruence. done.
Qed.
End chaining.

(** ** The further properties on [sample] *)

Lemma isLeft_isRight_exclusive_witness :
  BinaryTreeNode.isLeft sample 4 = negb (BinaryTreeNode.isRight sample 4).
Proof.
  apply (isLeft_isRight_exclusive sample 4).
  - exists sample_ops. reflexivity.
  - reflexivity.
Defined.

Lemma isLeaf_iff_no_son_witness :
  BinaryTreeNode.isLeaf sample 3 = true ↔
  ∀ c, BinaryTreeNode.descendant 8 sample 3 (Some c) = Some false.
Proof.
  apply (isLeaf_iff_no_son sample 3 8).
  - exists sample_ops. reflexivity.
  - vm_compute. lia.
Defined.

Lemma topology_append_only_witness :
  BinaryTreeNode.father (run [InsertLeft 3 9; New 7] sample) 3
    = BinaryTreeNode.father sample 3.
Proof.
  apply (topology_append_only sample [InsertLeft 3 9; New 7] 3).
  apply elem_of_dom. vm_compute. eexists. reflexivity.
Defined.

Lemma slot_written_once_witness :
  let h' := run [New 2; InsertRight 3 6]
              (BinaryTreeNode.insertLeft 3 9 sample).2 in
  BinaryTreeNode.insertLeft 3 7 h' = (Thrown InvalidInsertion, h').
Proof.
  apply (slot_written_once sample 3 9 (Node 8 (Some 1%positive) None None 1));
    reflexivity.
Defined.

Lemma inserted_node_position_witness :
  let c := fresh (dom sample) in
  let h' := (BinaryTreeNode.insertLeft 3 9 sample).2 in
  BinaryTreeNode.isLeft h' c = true ∧ BinaryTreeNode.isRight h' c = false ∧
  BinaryTreeNode.isLeaf h' c = true ∧ BinaryTreeNode.isRoot h' c = false ∧
  BinaryTreeNode.isLeaf h' 3 = false ∧
  BinaryTreeNode.brother h' c = BinaryTreeNode.right sample 3 ∧
  (∀ fuel, BinaryTreeNode.root (S fuel) h' c
           = BinaryTreeNode.root fuel sample 3) ∧
  (∀ fuel x, x ∈ dom sample →
             BinaryTreeNode.root fuel h' x = BinaryTreeNode.root fuel sample x).
Proof.
  apply (inserted_node_position sample 3 9
           (Node 8 (Some 1%positive) None None 1)).
  - exists sample_ops. reflexivity.
  - reflexivity.
  - reflexivity.
Defined.

Lemma root_shared_along_chain_witness :
  ∃ r, BinaryTreeNode.root 3 sample 4 = Some r ∧
       BinaryTreeNode.level sample r = 0 ∧
       BinaryTreeNode.root 3 sample r = Some r ∧
       ∀ m, rtc (father_of sample) 4%positive m →
            BinaryTreeNode.root 3 sample m = Some r.
Proof.
  apply (root_shared_along_chain sample 4 3).
  - exists sample_ops. reflexivity.
  - vm_compute. lia.
Defined.

Lemma root_is_ancestor_witness :
  ∃ r, BinaryTreeNode.root 8 sample 4 = Some r ∧
       BinaryTreeNode.ancestor 8 sample 4 (Some r) = Some true ∧
       BinaryTreeNode.descendant 8 sample r (Some 4%positive) = Some true.
Proof.
  apply (root_is_ancestor sample 4 8).
  - exists sample_ops. reflexivity.
  - vm_compute. lia.
  - reflexivity.
Defined.

Lemma ancestor_strict_order_witness :
  BinaryTreeNode.level sample 2 < BinaryTreeNode.level sample 4 ∧
  BinaryTreeNode.ancestor 3 sample 2 (Some 4%positive) = Some false ∧
  (BinaryTreeNode.ancestor 3 sample 2 (Some 1%positive) = Some true →
   BinaryTreeNode.ancestor 3 sample 4 (Some 1%positive) = Some true).
Proof.
  apply (ancestor_strict_order sample 4 2 1 3).
  - exists sample_ops. reflexivity.
  - vm_compute. lia.
  - reflexivity.
Defined.

Lemma ancestor_same_root_witness :
  ∃ r, BinaryTreeNode.root 3 sample 4 = Some r ∧
       BinaryTreeNode.root 3 sample 2 = Some r.
Proof.
  apply (ancestor_same_root sample 4 2 3).
  - exists sample_ops. reflexivity.
  - vm_compute. lia.
  - reflexivity.
Defined.

Lemma brother_symmetric_witness :
  BinaryTreeNode.brother sample 5 = Some 4%positive ∧ 5%positive ≠ 4%positive ∧
  BinaryTreeNode.father sample 5 = BinaryTreeNode.father sample 4 ∧
  BinaryTreeNode.level sample 5 = BinaryTreeNode.level sample 4.
Proof.
  apply (brother_symmetric sample 4 5).
  - exists sample_ops. reflexivity.
  - reflexivity.
Defined.

Lemma isRoot_iff_level_zero_witness :
  BinaryTreeNode.isRoot sample 1 = true ↔ BinaryTreeNode.level sample 1 = 0.
Proof.
  apply (isRoot_iff_level_zero sample 1). exists sample_ops. reflexivity.
Defined.

Lemma level_counts_root_turns_witness :
  BinaryTreeNode.root (BinaryTreeNode.level sample 4) sample 4 = None ∧
  (∃ r, BinaryTreeNode.root (S (BinaryTreeNode.level sample 4)) sample 4
          = Some r ∧
        nsteps (father_of sample) (BinaryTreeNode.level sample 4)
          4%positive r) ∧
  (4%positive ∈ dom sample → BinaryTreeNode.level sample 4 < size sample).
Proof.
  apply (level_counts_root_turns sample 4). exists sample_ops. reflexivity.
Defined.

Lemma node_in_one_slot_witness :
  2%positive = 2%positive ∧ SlotLeft = SlotLeft.
Proof.
  apply (node_in_one_slot sample 2 2 SlotLeft SlotLeft 4).
  - exists sample_ops. reflexivity.
  - reflexivity.
  - reflexivity.
Defined.

Lemma insert_chain_builds_brothers_witness :
  ∃ cl cr (h2 : heap nat),
    bind (BinaryTreeNode.insertLeft 3 6) (λ r, BinaryTreeNode.insertRight r 9)
      sample = (Normal 3%positive, h2) ∧
    cl ≠ cr ∧ (cl ∉ dom sample) ∧ (cr ∉ dom sample) ∧
    dom h2 = {[cl; cr]} ∪ dom sample ∧
    BinaryTreeNode.left h2 3 = Some cl ∧ BinaryTreeNode.right h2 3 = Some cr ∧
    BinaryTreeNode.data h2 cl = Some 6 ∧ BinaryTreeNode.data h2 cr = Some 9 ∧
    BinaryTreeNode.level h2 cl = BinaryTreeNode.level sample 3 + 1 ∧
    BinaryTreeNode.level h2 cr = BinaryTreeNode.level sample 3 + 1 ∧
    BinaryTreeNode.brother h2 cl = Some cr ∧
    BinaryTreeNode.brother h2 cr = Some cl.
Proof.
  apply (insert_chain_builds_brothers sample 3 6 9
           (Node 8 (Some 1%positive) None None 1)); reflexivity.
Defined.

Lemma same_level_unrelated_witness :
  (BinaryTreeNode.level sample 4 = BinaryTreeNode.level sample 5 →
   BinaryTreeNode.ancestor 8 sample 4 (Some 5%positive) = Some false ∧
   BinaryTreeNode.descendant 8 sample 4 (Some 5%positive) = Some false) ∧
  (BinaryTreeNode.brother sample 4 = Some 5%positive →
   BinaryTreeNode.ancestor 8 sample 4 (Some 5%positive) = Some false ∧
   BinaryTreeNode.descendant 8 sample 4 (Some 5%positive) = Some false).
Proof.
  apply (same_level_unrelated sample 4 5 8).
  - exists sample_ops. reflexivity.
  - vm_compute. lia.
Defined.
